(** * Source-link construction for Go modules (package [source])

    A shallow embedding of [internal/source/source.go]: the table of
    hosting patterns, the static matcher, the derivation of a commit from a
    version, template expansion and the URL-building methods of [Info],
    together with the parts of the Go standard library the code relies on
    ([strings], [path], [strconv], [regexp]).

    Go strings are byte sequences; they are modelled as [list ascii]. *)

From Stdlib Require Import ZArith Ascii String List Lia DecimalString DecimalPos DecimalZ.
From stdpp Require Import base list strings gmap.

Abbreviation gostring := (list ascii).

(** A Go string literal. *)
Definition str (s : string) : gostring := String.list_ascii_of_string s.

(** The numeric value of a byte. *)
Definition code (c : ascii) : N := N_of_ascii c.

(** ** Package [strings] *)
Module Strings.

(** [strings.HasPrefix]: [len(s) >= len(prefix) && s[:len(prefix)] == prefix]. *)
Fixpoint HasPrefix (s prefix : gostring) {struct prefix} : bool :=
  match prefix, s with
  | [], _ => true
  | p :: prefix', c :: s' => if Ascii.eqb p c then HasPrefix s' prefix' else false
  | _ :: _, [] => false
  end.

(** [strings.HasSuffix]: [len(s) >= len(suffix) && s[len(s)-len(suffix):] == suffix]. *)
Definition HasSuffix (s suffix : gostring) : bool :=
  (length suffix <=? length s)
  && bool_decide (drop (length s - length suffix) s = suffix).

(** [strings.TrimPrefix]: [s] without the leading [prefix], or [s] itself. *)
Definition TrimPrefix (s prefix : gostring) : gostring :=
  if HasPrefix s prefix then drop (length prefix) s else s.

(** [strings.TrimSuffix]: [s] without the trailing [suffix], or [s] itself. *)
Definition TrimSuffix (s suffix : gostring) : gostring :=
  if HasSuffix s suffix then take (length s - length suffix) s else s.

(** [strings.Count] for a non-empty [substr]: the number of non-overlapping
    instances, found from the left.  [skip] bytes of the instance just
    counted are still to be passed over. *)
Fixpoint count_go (substr : gostring) (skip : nat) (s : gostring) : nat :=
  match s with
  | [] => 0
  | _ :: s' =>
      match skip with
      | S k => count_go substr k s'
      | 0 => if HasPrefix s substr
             then S (count_go substr (length substr - 1) s')
             else count_go substr 0 s'
      end
  end.

Definition Count (s substr : gostring) : nat := count_go substr 0 s.

(** [strings.LastIndex]: the index of the last instance of [substr] in [s],
    or -1.  The scan keeps the last offset at which [substr] starts. *)
Fixpoint last_index_go (substr : gostring) (i : Z) (s : gostring) (best : Z) : Z :=
  match s with
  | [] => best
  | _ :: s' =>
      last_index_go substr (i + 1) s' (if HasPrefix s substr then i else best)
  end.

Definition LastIndex (s substr : gostring) : Z :=
  match substr with
  | [] => Z.of_nat (length s)
  | _ => last_index_go substr 0 s (-1)
  end.

(** The slice expression [s[i:]]. *)
Definition slice_from (s : gostring) (i : Z) : gostring := drop (Z.to_nat i) s.

(** *** [strings.Replacer]

    [NewReplacer(old1, new1, old2, new2, ...).Replace(s)]: replacements are
    performed in the order they appear in [s], without overlapping
    matches, and the [old] strings are compared in argument order.  Every
    [old] string given by this package is non-empty. *)

(** The first pair, in argument order, whose [old] starts [s]. *)
Fixpoint lookup (oldnew : list (gostring * gostring)) (s : gostring)
  : option (gostring * gostring) :=
  match oldnew with
  | [] => None
  | (old, new) :: rest =>
      if HasPrefix s old then Some (old, new) else lookup rest s
  end.

(** One left-to-right pass; [skip] bytes of the [old] string just replaced
    are still to be passed over. *)
Fixpoint replace_go (oldnew : list (gostring * gostring)) (skip : nat)
  (s : gostring) : gostring :=
  match s with
  | [] => []
  | c :: s' =>
      match skip with
      | S k => replace_go oldnew k s'
      | 0 => match lookup oldnew s with
             | Some (old, new) => new ++ replace_go oldnew (length old - 1) s'
             | None => c :: replace_go oldnew 0 s'
             end
      end
  end.

Definition Replace (oldnew : list (gostring * gostring)) (s : gostring) : gostring :=
  replace_go oldnew 0 s.

End Strings.

(** ** Package [strconv] *)
Module Strconv.

(** [strconv.Itoa]: the base-10 representation, with a leading [-] for a
    negative number. *)
Definition Itoa (i : Z) : gostring := str (NilZero.string_of_int (Z.to_int i)).

End Strconv.

(** ** Package [path] *)
Module Path.

(** The elements of a path between its slashes: [split "a//b" = ["a"; ""; "b"]]. *)
Fixpoint split (s : gostring) : list gostring :=
  match s with
  | [] => [[]]
  | c :: s' =>
      if Ascii.eqb c "/"
      then [] :: split s'
      else match split s' with
           | [] => [[c]]
           | e :: es => (c :: e) :: es
           end
  end.

(** One step of the loop of [path.Clean] over the elements kept so far
    (last element first): empty and [.] elements are dropped, [..] removes
    the last real element when there is one, is dropped at the root of a
    rooted path, and is kept otherwise. *)
Definition clean_step (rooted : bool) (out : list gostring) (e : gostring)
  : list gostring :=
  if bool_decide (e = []) || bool_decide (e = str ".") then out
  else if bool_decide (e = str "..") then
    match out with
    | top :: out' =>
        if bool_decide (top = str "..") then e :: out else out'
    | [] => if rooted then out else [e]
    end
  else e :: out.

Fixpoint join_with (sep : gostring) (es : list gostring) : gostring :=
  match es with
  | [] => []
  | [e] => e
  | e :: es' => e ++ sep ++ join_with sep es'
  end.

(** [path.Clean]. *)
Definition Clean (p : gostring) : gostring :=
  match p with
  | [] => str "."
  | c :: _ =>
      let rooted := Ascii.eqb c "/" in
      let out := rev (fold_left (clean_step rooted) (split p) []) in
      let body := join_with (str "/") out in
      if rooted then str "/" ++ body
      else match body with [] => str "." | _ => body end
  end.

(** [path.Join]: the elements from the first non-empty one on are joined
    with slashes and cleaned; the result is empty when all are empty. *)
Fixpoint Join (elem : list gostring) : gostring :=
  match elem with
  | [] => []
  | e :: rest =>
      match e with
      | [] => Join rest
      | _ => Clean (join_with (str "/") elem)
      end
  end.

End Path.

(** ** Package [regexp]

    Go's [regexp] matches leftmost-first: it returns a match that begins as
    early as possible in the input and, among those, the one that a
    backtracking search would have found first.  The model is that
    backtracking search, over the syntax tree of the expression. *)
Module Regexp.

(** The syntax the expressions of this package use.  A class is a list of
    inclusive ASCII ranges; a capture group carries its index (the rank
    of its left parenthesis) and its name ([""] when unnamed). *)
Inductive regex : Type :=
| Eps
| Lit (l : gostring)                      (* literal ASCII text *)
| Class (cs : list (ascii * ascii))       (* [...] *)
| NotClass (cs : list (ascii * ascii))    (* [^...] *)
| AnyNotNL                                (* . *)
| BeginText                               (* ^ *)
| EndText                                 (* $ *)
| Seq (r1 r2 : regex)
| Alt (r1 r2 : regex)                     (* r1|r2 *)
| Star (r : regex)                        (* r* *)
| Plus (r : regex)                        (* r+ *)
| LazyPlus (r : regex)                    (* r+? *)
| Opt (r : regex)                         (* r? *)
| Rep (count : nat) (r : regex)           (* r{count} *)
| Group (i : nat) (name : string) (r : regex).

Declare Scope regex_scope.
Delimit Scope regex_scope with re.
Bind Scope regex_scope with regex.
Infix ":>:" := Seq (at level 41, right associativity) : regex_scope.
Infix ":|:" := Alt (at level 42, right associativity) : regex_scope.

Definition between (lo hi : N) (c : ascii) : bool :=
  (lo <=? code c)%N && (code c <=? hi)%N.

Definition in_class (cs : list (ascii * ascii)) (c : ascii) : bool :=
  existsb (fun r => between (code r.1) (code r.2) c) cs.

(** The input is read rune by rune: [rune_width s] is the width of the
    rune that starts [s], as [utf8.DecodeRuneInString] gives it: the
    length of a well-formed UTF-8 sequence, and 1 for an ASCII byte or
    for a byte that starts no well-formed sequence. *)
Definition continuation : ascii -> bool := between 0x80 0xBF.

Definition second_of_3 (b0 b1 : ascii) : bool :=
  if (code b0 =? 0xE0)%N then between 0xA0 0xBF b1
  else if (code b0 =? 0xED)%N then between 0x80 0x9F b1
  else continuation b1.

Definition second_of_4 (b0 b1 : ascii) : bool :=
  if (code b0 =? 0xF0)%N then between 0x90 0xBF b1
  else if (code b0 =? 0xF4)%N then between 0x80 0x8F b1
  else continuation b1.

Definition rune_width (s : gostring) : nat :=
  match s with
  | [] => 0
  | b0 :: t =>
      if (code b0 <? 0x80)%N then 1
      else if between 0xC2 0xDF b0 then
        match t with
        | b1 :: _ => if continuation b1 then 2 else 1
        | _ => 1
        end
      else if between 0xE0 0xEF b0 then
        match t with
        | b1 :: b2 :: _ =>
            if second_of_3 b0 b1 && continuation b2 then 3 else 1
        | _ => 1
        end
      else if between 0xF0 0xF4 b0 then
        match t with
        | b1 :: b2 :: b3 :: _ =>
            if second_of_4 b0 b1 && continuation b2 && continuation b3
            then 4 else 1
        | _ => 1
        end
      else 1
  end.

(** The offsets of each group's last match; entry 0 is the whole match. *)
Definition captures := list (option (nat * nat)).

(** What is left of the input at the end of a match, and the groups. *)
Definition result : Type := gostring * captures.
Definition kont : Type := gostring -> captures -> option result.

Definition or_else (a b : option result) : option result :=
  match a with Some x => Some x | None => b end.

(** Iteration of [body]: a greedy loop tries one more round before it
    leaves, a lazy one leaves first.  A round that consumes nothing is
    not repeated. *)
Fixpoint loop (greedy : bool) (body : gostring -> captures -> kont -> option result)
  (fuel : nat) (s : gostring) (caps : captures) (k : kont) : option result :=
  match fuel with
  | 0 => k s caps
  | S fuel' =>
      if greedy then
        match body s caps (fun s' caps' =>
                if length s' <? length s then loop greedy body fuel' s' caps' k
                else None) with
        | Some x => Some x
        | None => k s caps
        end
      else
        match k s caps with
        | Some x => Some x
        | None =>
            body s caps (fun s' caps' =>
              if length s' <? length s then loop greedy body fuel' s' caps' k
              else None)
        end
  end.

(** [count] rounds of [body]. *)
Fixpoint times (count : nat) (body : gostring -> captures -> kont -> option result)
  (s : gostring) (caps : captures) (k : kont) : option result :=
  match count with
  | 0 => k s caps
  | S count' => body s caps (fun s' caps' => times count' body s' caps' k)
  end.

Section Backtrack.
(** The length of the whole input: the offset of a suffix [s] of the
    input is [n - length s]. *)
Variable n : nat.

(** [m r s caps k]: match [r] at the start of [s], then go on with [k];
    alternatives are tried in the order of preference. *)
Fixpoint m (r : regex) (s : gostring) (caps : captures) (k : kont)
  {struct r} : option result :=
  match r with
  | Eps => k s caps
  | Lit l =>
      if Strings.HasPrefix s l then k (drop (length l) s) caps else None
  | Class cs =>
      match s with
      | c :: s' =>
          if (code c <? 0x80)%N && in_class cs c then k s' caps else None
      | [] => None
      end
  | NotClass cs =>
      match s with
      | c :: _ =>
          if (code c <? 0x80)%N && in_class cs c then None
          else k (drop (rune_width s) s) caps
      | [] => None
      end
  | AnyNotNL =>
      match s with
      | c :: _ =>
          if Ascii.eqb c "010" then None
          else k (drop (rune_width s) s) caps
      | [] => None
      end
  | BeginText => if length s =? n then k s caps else None
  | EndText => match s with [] => k s caps | _ :: _ => None end
  | Seq r1 r2 => m r1 s caps (fun s' caps' => m r2 s' caps' k)
  | Alt r1 r2 => or_else (m r1 s caps k) (m r2 s caps k)
  | Star r' => loop true (m r') (S (length s)) s caps k
  | Plus r' =>
      m r' s caps (fun s' caps' => loop true (m r') (S (length s')) s' caps' k)
  | LazyPlus r' =>
      m r' s caps (fun s' caps' => loop false (m r') (S (length s')) s' caps' k)
  | Opt r' => or_else (m r' s caps k) (k s caps)
  | Rep count r' => times count (m r') s caps k
  | Group i _ r' =>
      m r' s caps (fun s' caps' =>
        k s' (<[i := Some (n - length s, n - length s')]> caps'))
  end.
End Backtrack.

(** The groups of an expression, in the order of their left parentheses. *)
Fixpoint groups (r : regex) : list (nat * string) :=
  match r with
  | Seq r1 r2 | Alt r1 r2 => groups r1 ++ groups r2
  | Star r' | Plus r' | LazyPlus r' | Opt r' | Rep _ r' => groups r'
  | Group i name r' => (i, name) :: groups r'
  | _ => []
  end.

(** A compiled expression: its source text and its syntax tree. *)
Record Regexp : Type := MustCompile { source : string; prog : regex }.

Definition NumSubexp (re : Regexp) : nat := length (groups (prog re)).

(** [SubexpNames]: entry 0 is the empty name of the whole match. *)
Definition SubexpNames (re : Regexp) : list string :=
  EmptyString :: (groups (prog re)).*2.

(** The groups are numbered from 1 in the order of their parentheses. *)
Definition well_numbered (re : Regexp) : bool :=
  bool_decide ((groups (prog re)).*1 = seq 1 (NumSubexp re)).

(** The search for the leftmost match: the expression is tried at each
    rune of the input in turn, and once more at its end.  [skip] bytes of
    the rune just passed are still to be passed over. *)
Fixpoint search (n : nat) (re : Regexp) (skip : nat) (s : gostring)
  : option result :=
  match skip with
  | S skip' =>
      match s with
      | [] => None
      | _ :: s' => search n re skip' s'
      end
  | 0 =>
      match m n (Group 0 EmptyString (prog re)) s
              (replicate (S (NumSubexp re)) None)
              (fun s' caps => Some (s', caps)) with
      | Some x => Some x
      | None =>
          match s with
          | [] => None
          | _ :: s' => search n re (rune_width s - 1) s'
          end
      end
  end.

Definition submatch (text : gostring) (c : option (nat * nat)) : gostring :=
  match c with
  | Some (a, b) => take (b - a) (drop a text)
  | None => []
  end.

(** [FindStringSubmatch]: the text of the leftmost match and of its
    groups, or nothing ([nil]) when there is no match. *)
Definition FindStringSubmatch (re : Regexp) (text : gostring)
  : option (list gostring) :=
  match search (length text) re 0 text with
  | Some (_, caps) => Some (submatch text <$> caps)
  | None => None
  end.

Definition MatchString (re : Regexp) (text : gostring) : bool :=
  match search (length text) re 0 text with
  | Some _ => true
  | None => false
  end.

(** The offset at which the leftmost match starts. *)
Definition match_start (re : Regexp) (text : gostring) : option nat :=
  match search (length text) re 0 text with
  | Some (_, Some (a, _) :: _) => Some a
  | _ => None
  end.

End Regexp.

(** ** Package [source] *)

Import Regexp.

(** Errors: [derrors.NotFound], the errors of the collaborators, and an
    error annotated by [derrors.Wrap] with the function and its arguments. *)
Inductive error : Type :=
| NotFound
| External (msg : gostring)
| Wrap (fn : string) (args : list gostring) (e : error).

(** A result paired with an error, as Go functions return them. *)
Inductive res (A : Type) : Type :=
| Ok (a : A)
| Err (e : error).
Arguments Ok {A} a.
Arguments Err {A} e.

(** [urlTemplates] describes how to build URLs from bits of source
    information. *)
Record urlTemplates : Type := mkTemplates {
  directory : gostring; (* with {repo}, {commit} and {dir} *)
  file : gostring;      (* with {repo}, {commit} and {file} *)
  line : gostring       (* with {repo}, {commit}, {file} and {line} *)
}.

Global Instance urlTemplates_eq_dec : EqDecision urlTemplates.
Proof. solve_decision. Defined.

(** The zero value [urlTemplates{}]. *)
Definition noTemplates : urlTemplates := mkTemplates [] [] [].

Definition githubURLTemplates : urlTemplates := {|
  directory := str "{repo}/tree/{commit}/{dir}";
  file := str "{repo}/blob/{commit}/{file}";
  line := str "{repo}/blob/{commit}/{file}#L{line}"
|}.

(** [Info] holds source information about a module. *)
Record Info : Type := mkInfo {
  RepoURL : gostring;
  moduleDir : gostring;
  commit : gostring;
  templates : urlTemplates
}.

(** An entry of the table of patterns. *)
Record pattern : Type := mkPattern {
  re : Regexp;            (* must have a group named "repo" *)
  pat_templates : urlTemplates
}.

Definition digit : list (ascii * ascii) := [("0", "9")]%char.
Definition alnum : list (ascii * ascii) := [("A", "Z"); ("a", "z"); ("0", "9")]%char.
(** [[a-z0-9A-Z_.\-]] *)
Definition name_chars : list (ascii * ascii) :=
  [("a", "z"); ("0", "9"); ("A", "Z"); ("_", "_"); (".", "."); ("-", "-")]%char.
(** [[a-z0-9.\-]] *)
Definition host_chars : list (ascii * ascii) :=
  [("a", "z"); ("0", "9"); (".", "."); ("-", "-")]%char.
(** [[A-Za-z0-9_.\-]] *)
Definition seg_chars : list (ascii * ascii) :=
  [("A", "Z"); ("a", "z"); ("0", "9"); ("_", "_"); (".", "."); ("-", "-")]%char.
Definition dot : list (ascii * ascii) := [(".", ".")]%char.
Definition plus_sign : list (ascii * ascii) := [("+", "+")]%char.

Definition github_re : Regexp :=
  MustCompile "^(?P<repo>github\.com/[a-z0-9A-Z_.\-]+/[a-z0-9A-Z_.\-]+)"
    (BeginText :>:
     Group 1 "repo"
       (Lit (str "github.com/") :>: Plus (Class name_chars) :>:
        Lit (str "/") :>: Plus (Class name_chars))).

Definition bitbucket_re : Regexp :=
  MustCompile "^(?P<repo>bitbucket\.org/[a-z0-9A-Z_.\-]+/[a-z0-9A-Z_.\-]+)"
    (BeginText :>:
     Group 1 "repo"
       (Lit (str "bitbucket.org/") :>: Plus (Class name_chars) :>:
        Lit (str "/") :>: Plus (Class name_chars))).

Definition googlesource_re : Regexp :=
  MustCompile "^(?P<repo>[^.]+\.googlesource.com/[^.]+)(\.git|$)"
    (BeginText :>:
     Group 1 "repo"
       (Plus (NotClass dot) :>: Lit (str ".") :>: Lit (str "googlesource") :>:
        AnyNotNL :>: Lit (str "com/") :>: Plus (NotClass dot)) :>:
     Group 2 "" (Lit (str ".git") :|: EndText)).

Definition general_re : Regexp :=
  MustCompile "(?P<repo>([a-z0-9.\-]+\.)+[a-z0-9.\-]+(:[0-9]+)?(/~?[A-Za-z0-9_.\-]+)+?)\.(bzr|fossil|git|hg|svn)"
    (Group 1 "repo"
       (Plus (Group 2 "" (Plus (Class host_chars) :>: Lit (str "."))) :>:
        Plus (Class host_chars) :>:
        Opt (Group 3 "" (Lit (str ":") :>: Plus (Class digit))) :>:
        LazyPlus (Group 4 "" (Lit (str "/") :>: Opt (Lit (str "~")) :>:
                              Plus (Class seg_chars)))) :>:
     Lit (str ".") :>:
     Group 5 "" (Lit (str "bzr") :|: Lit (str "fossil") :|: Lit (str "git") :|:
                 Lit (str "hg") :|: Lit (str "svn"))).

(** Patterns for determining repo and URL templates from module paths or
    repo URLs. *)
Definition patterns : list pattern := [
  (* Patterns known to the go command. *)
  mkPattern github_re githubURLTemplates;
  mkPattern bitbucket_re {|
    directory := str "{repo}/src/{commit}/{dir}";
    file := str "{repo}/src/{commit}/{file}";
    line := str "{repo}/src/{commit}/{file}#lines-{line}" |};
  (* Patterns that match the general go command pattern. *)
  mkPattern googlesource_re {|
    directory := str "{repo}/+/{commit}/{dir}";
    file := str "{repo}/+/{commit}/{file}";
    line := str "{repo}/+/{commit}/{file}#{line}" |};
  (* General syntax for the go command; the URL templates are not known.
     Must be last in this list. *)
  mkPattern general_re noTemplates
].

(** The outcome of package initialisation. *)
Inductive init_outcome : Type :=
| Initialized
| Panic (msg : string).

Definition has_repo_group (names : list string) : bool :=
  existsb (String.eqb "repo") names.

(** [init] over a table: it panics at the first pattern without a group
    named "repo". *)
Fixpoint init_on (table : list pattern) : init_outcome :=
  match table with
  | [] => Initialized
  | p :: rest =>
      if has_repo_group (SubexpNames (re p)) then init_on rest
      else Panic ("pattern " +:+ source (re p) +:+ " missing <repo> group")
  end.

Definition init : init_outcome := init_on patterns.

(** The inner loop of [matchStatic]: the submatch at the index of the first
    group named "repo", and the empty string when there is none. *)
Fixpoint repo_of (names : list string) (i : nat) (matches : list gostring) : gostring :=
  match names with
  | [] => []
  | n :: names' =>
      if String.eqb n "repo" then default [] (matches !! i)
      else repo_of names' (S i) matches
  end.

(** What [matchStatic] returns for the pattern [p] with submatches [matches]. *)
Definition match_result (p : pattern) (id : gostring) (matches : list gostring)
  : gostring * gostring * urlTemplates :=
  let repo := repo_of (SubexpNames (re p)) 0 matches in
  (* The directory is everything after what the pattern matches. *)
  let dir := drop (length (default [] (matches !! 0))) id in
  let dir := Strings.TrimPrefix dir (str "/") in
  (repo, dir, pat_templates p).

(** [matchStatic] matches its argument against a list of known patterns.
    It returns the repo name, directory and URL templates if there is a
    match. *)
Fixpoint matchStatic_in (table : list pattern) (modulePathOrRepoURL : gostring)
  : res (gostring * gostring * urlTemplates) :=
  match table with
  | [] => Err NotFound
  | pat :: rest =>
      match FindStringSubmatch (re pat) modulePathOrRepoURL with
      | None => matchStatic_in rest modulePathOrRepoURL
      | Some matches => Ok (match_result pat modulePathOrRepoURL matches)
      end
  end.

Definition matchStatic : gostring -> res (gostring * gostring * urlTemplates) :=
  matchStatic_in patterns.

Definition pseudoVersionRE : Regexp :=
  MustCompile "^v[0-9]+\.(0\.0-|\d+\.\d+-([^+]*\.)?0\.)\d{14}-[A-Za-z0-9]+(\+incompatible)?$"
    (BeginText :>: Lit (str "v") :>: Plus (Class digit) :>: Lit (str ".") :>:
     Group 1 ""
       (Lit (str "0.0-") :|:
        (Plus (Class digit) :>: Lit (str ".") :>: Plus (Class digit) :>:
         Lit (str "-") :>:
         Opt (Group 2 "" (Star (NotClass plus_sign) :>: Lit (str "."))) :>:
         Lit (str "0."))) :>:
     Rep 14 (Class digit) :>: Lit (str "-") :>: Plus (Class alnum) :>:
     Opt (Group 3 "" (Lit (str "+incompatible"))) :>: EndText).

(** [isPseudoVersion] reports whether a valid version [v] is a
    pseudo-version. *)
Definition isPseudoVersion (v : gostring) : bool :=
  (2 <=? Strings.Count v (str "-")) && MatchString pseudoVersionRE v.

(** [commitFromVersion] returns a string that refers to a commit
    corresponding to [version]; [dir] is the directory of the module
    relative to the repo root. *)
Definition commitFromVersion (version dir : gostring) : gostring :=
  let v := Strings.TrimSuffix version (str "+incompatible") in
  if isPseudoVersion v then
    (* Use the commit hash at the end. *)
    Strings.slice_from v (Strings.LastIndex v (str "-") + 1)
  else
    (* The tags for a nested module begin with the relative directory. *)
    if bool_decide (dir <> []) then dir ++ str "/" ++ v else v.

(** The argument list that [expand] hands to [strings.NewReplacer] when
    the map is iterated in the order [entries]. *)
Definition oldNew (entries : list (gostring * gostring)) : list (gostring * gostring) :=
  (fun kv => (str "{" ++ kv.1 ++ str "}", kv.2)) <$> entries.

Definition expand_in_order (s : gostring) (entries : list (gostring * gostring)) : gostring :=
  Strings.Replace (oldNew entries) s.

(** A source of metadata about a module, as the meta tags give it. *)
Record sourceMeta : Type := mkMeta {
  repoRootPrefix : gostring;
  repoURL : gostring
}.

(** What the code reads of a parsed URL. *)
Record URL : Type := mkURL {
  Hostname : gostring;
  Path : gostring
}.

(** A message of [log.Errorf]. *)
Inductive log_entry : Type :=
| NoTemplates (repoURL : gostring) (err : option error).

Section Source.
(** The order in which [range] iterates over a map is not specified: it
    is some enumeration of the entries of the map. *)
Variable range : gmap gostring gostring -> list (gostring * gostring).

(** Package [stdlib], the fetching of meta tags and [url.Parse]. *)
Variable stdlib_ModulePath : gostring.
Variable stdlib_TagForVersion : gostring -> res gostring.
Variable stdlib_Directory : gostring -> gostring.
Variable stdlib_GoSourceRepoURL : gostring.
Variable fetchMeta : gostring -> res sourceMeta.
Variable url_Parse : gostring -> res URL.

(** [expand] rewrites [s] to replace {k} with [match[k]] for each key [k]
    in [match]. *)
Definition expand (s : gostring) (match_ : gmap gostring gostring) : gostring :=
  expand_in_order s (range match_).

(** [DirectoryURL] returns a URL for a directory relative to the module's
    home directory. *)
Definition DirectoryURL (i : Info) (dir : gostring) : gostring :=
  Strings.TrimSuffix
    (expand (directory (templates i))
       (list_to_map [
          (str "repo", RepoURL i);
          (str "commit", commit i);
          (str "dir", Path.Join [moduleDir i; dir])]))
    (str "/").

(** [ModuleURL] returns a URL for the home page of the module. *)
Definition ModuleURL (i : Info) : gostring := DirectoryURL i [].

(** [FileURL] returns a URL for a file whose pathname is relative to the
    module's home directory. *)
Definition FileURL (i : Info) (pathname : gostring) : gostring :=
  expand (file (templates i))
    (list_to_map [
       (str "repo", RepoURL i);
       (str "commit", commit i);
       (str "file", Path.Join [moduleDir i; pathname])]).

(** [LineURL] returns a URL referring to a line in a file relative to the
    module's home directory. *)
Definition LineURL (i : Info) (pathname : gostring) (line_ : Z) : gostring :=
  expand (line (templates i))
    (list_to_map [
       (str "repo", RepoURL i);
       (str "commit", commit i);
       (str "file", Path.Join [moduleDir i; pathname]);
       (str "line", Strconv.Itoa line_)]).

(** [moduleInfoDynamic] uses the go-import and go-source meta tags to
    construct an [Info].  It returns its result and what it logged. *)
Definition moduleInfoDynamic (modulePath version : gostring)
  : res Info * list log_entry :=
  let wrap e := Err (Wrap "source.moduleInfoDynamic" [modulePath; version] e) in
  match fetchMeta modulePath with
  | Err e => (wrap e, [])
  | Ok meta =>
      match url_Parse (repoURL meta) with
      | Err e => (wrap e, [])
      | Ok rurl =>
          let matched := matchStatic (Path.Join [Hostname rurl; Path rurl]) in
          let templates :=
            match matched with Ok (_, _, t) => t | Err _ => noTemplates end in
          let err := match matched with Ok _ => None | Err e => Some e end in
          let logged :=
            if bool_decide (templates = noTemplates)
            then [NoTemplates (repoURL meta) err] else [] in
          let dir :=
            Strings.TrimPrefix
              (Strings.TrimPrefix modulePath (repoRootPrefix meta)) (str "/") in
          (Ok {| RepoURL := Strings.TrimSuffix (repoURL meta) (str "/");
                 moduleDir := dir;
                 commit := commitFromVersion version dir;
                 templates := templates |},
           logged)
      end
  end.

Definition moduleInfo (modulePath version : gostring) : res Info * list log_entry :=
  if bool_decide (modulePath = stdlib_ModulePath) then
    match stdlib_TagForVersion version with
    | Err e => (Err e, [])
    | Ok commit =>
        (Ok {| RepoURL := stdlib_GoSourceRepoURL;
               moduleDir := stdlib_Directory version;
               commit := commit;
               templates := githubURLTemplates |}, [])
    end
  else
    match matchStatic modulePath with
    | Err _ => moduleInfoDynamic modulePath version
    | Ok (repo, dir, templates) =>
        (Ok {| RepoURL := str "https://" ++ repo;
               moduleDir := dir;
               commit := commitFromVersion version dir;
               templates := templates |}, [])
    end.

(** [ModuleInfo] determines the repository corresponding to the module
    path. *)
Definition ModuleInfo (modulePath version : gostring) : res Info * list log_entry :=
  match moduleInfo modulePath version with
  | (Err e, logged) => (Err (Wrap "source.ModuleInfo" [modulePath; version] e), logged)
  | r => r
  end.
End Source.

(** ** What an expression matches

    The texts that an expression matches, independently of the order in
    which the search tries them: [lang n r s s'] holds when [r] matches the
    part of [s] in front of its suffix [s'], in an input of [n] bytes. *)
Module Lang.

(** Rounds of [L], each of which consumes something. *)
Inductive star (L : gostring -> gostring -> Prop) : gostring -> gostring -> Prop :=
| star_refl s : star L s s
| star_step s t u : L s t -> length t < length s -> star L t u -> star L s u.

Fixpoint iter (count : nat) (L : gostring -> gostring -> Prop) (s s' : gostring) : Prop :=
  match count with
  | 0 => s' = s
  | S count' => exists t, L s t /\ iter count' L t s'
  end.

Fixpoint lang (n : nat) (r : regex) (s s' : gostring) : Prop :=
  match r with
  | Eps => s' = s
  | Lit l => s = l ++ s'
  | Class cs =>
      exists c, s = c :: s' /\ (code c <? 0x80)%N && in_class cs c = true
  | NotClass cs =>
      exists c t, s = c :: t /\ (code c <? 0x80)%N && in_class cs c = false
                  /\ s' = drop (rune_width s) s
  | AnyNotNL =>
      exists c t, s = c :: t /\ Ascii.eqb c "010" = false
                  /\ s' = drop (rune_width s) s
  | BeginText => s' = s /\ length s = n
  | EndText => s' = s /\ s = []
  | Seq r1 r2 => exists t, lang n r1 s t /\ lang n r2 t s'
  | Alt r1 r2 => lang n r1 s s' \/ lang n r2 s s'
  | Star r' => star (lang n r') s s'
  | Plus r' | LazyPlus r' => exists t, lang n r' s t /\ star (lang n r') t s'
  | Opt r' => lang n r' s s' \/ s' = s
  | Rep count r' => iter count (lang n r') s s'
  | Group _ _ r' => lang n r' s s'
  end.

(** A continuation whose success does not depend on the groups. *)
Definition uniform (k : kont) : Prop :=
  forall s caps caps', is_Some (k s caps) -> is_Some (k s caps').


(** [body] succeeds exactly when [L] relates the input to a suffix with
    which the continuation succeeds. *)
Definition realises (body : gostring -> captures -> kont -> option result)
  (L : gostring -> gostring -> Prop) : Prop :=
  forall s caps k, uniform k ->
    (is_Some (body s caps k) <-> exists t, L s t /\ is_Some (k t caps)).

(** A byte that a class admits, and one that its negation admits. *)
Definition inside (cs : list (ascii * ascii)) (c : ascii) : Prop :=
  (code c <? 128)%N && in_class cs c = true.
Definition outside (cs : list (ascii * ascii)) (c : ascii) : Prop :=
  (code c <? 128)%N && in_class cs c = false.

(** [body] hands to its continuation a suffix of its input and as many
    groups as it was given. *)
Definition threads (body : gostring -> captures -> kont -> option result) : Prop :=
  forall s caps k res, body s caps k = Some res ->
    exists s' caps', k s' caps' = Some res /\ length caps' = length caps
                     /\ s' `suffix_of` s.

End Lang.

(** ** Pseudo-versions in the words of the specification *)

Definition is_digit (c : ascii) : Prop := (48 <= code c <= 57)%N.

Definition is_alnum (c : ascii) : Prop :=
  is_digit c \/ (65 <= code c <= 90)%N \/ (97 <= code c <= 122)%N.

Definition number (s : gostring) : Prop := s <> [] /\ Forall is_digit s.

(** A byte of an owner or repository name: [[a-z0-9A-Z_.\-]]. *)
Definition is_name_char (c : ascii) : Prop :=
  is_alnum c \/ c = "_"%char \/ c = "."%char \/ c = "-"%char.

(** A non-empty name, and a text that does not go on with a byte of a name. *)
Definition name (s : gostring) : Prop := s <> [] /\ Forall is_name_char s.
Definition ends_name (rest : gostring) : Prop :=
  forall c t, rest = c :: t -> ~ is_name_char c.

(** "v<major>." followed by either "0.0-" or "<minor>.<patch>-", an
    optional pre-release label with its dot and "0.", followed by exactly
    14 digits, a hyphen, an alphanumeric revision token, and an optional
    "+incompatible" marker. *)
Definition spec_pseudo_version_grammar (v : gostring) : Prop :=
  exists major middle timestamp revision marker : gostring,
    v = str "v" ++ major ++ str "." ++ middle ++ timestamp ++ str "-"
        ++ revision ++ marker
    /\ number major
    /\ (middle = str "0.0-"
        \/ exists minor patch pre : gostring,
             middle = minor ++ str "." ++ patch ++ str "-" ++ pre ++ str "0."
             /\ number minor /\ number patch
             /\ (pre = [] \/ exists label, pre = label ++ str "." /\ "+"%char ∉ label))
    /\ length timestamp = 14 /\ Forall is_digit timestamp
    /\ revision <> [] /\ Forall is_alnum revision
    /\ (marker = [] \/ marker = str "+incompatible").

(** The number of hyphens of a string. *)
Definition hyphens (v : gostring) : nat :=
  length (filter (fun c => c = "-"%char) v).

(** ** Vocabulary of the properties *)

(** Argument lists in which at most one pair applies at any input. *)
Definition unambiguous (oldnew : list (gostring * gostring)) : Prop :=
  forall p q s, p ∈ oldnew -> q ∈ oldnew ->
    Strings.HasPrefix s p.1 = true -> Strings.HasPrefix s q.1 = true -> p = q.

(** The placeholder of a key. *)
Definition token (k : gostring) : gostring := str "{" ++ k ++ str "}".

(** No placeholder of the map starts another one. *)
Definition tokens_prefix_free (m : gmap gostring gostring) : Prop :=
  forall k1 k2, is_Some (m !! k1) -> is_Some (m !! k2) ->
    token k1 `prefix_of` token k2 -> k1 = k2.

Definition brace_free (k : gostring) : Prop := "}"%char ∉ k.

Definition no_open_brace (k : gostring) : Prop := "{"%char ∉ k.

(** The alternatives between the major number and the timestamp. *)
Definition middle_re : regex :=
  Group 1 ""
    (Lit (str "0.0-") :|:
     (Plus (Class digit) :>: Lit (str ".") :>: Plus (Class digit) :>:
      Lit (str "-") :>:
      Opt (Group 2 "" (Star (NotClass plus_sign) :>: Lit (str "."))) :>:
      Lit (str "0."))).

Definition middle_text (middle : gostring) : Prop :=
  middle = str "0.0-"
  \/ exists minor patch pre : gostring,
       middle = minor ++ str "." ++ patch ++ str "-" ++ pre ++ str "0."
       /\ number minor /\ number patch
       /\ (pre = [] \/ exists label, pre = label ++ str "." /\ "+"%char ∉ label).

Example Itoa_ex : Strconv.Itoa 0 = str "0" /\ Strconv.Itoa (-1) = str "-1" /\ Strconv.Itoa 1234 = str "1234".
Proof. repeat split; reflexivity. Qed.

Example Join_ex :
  Path.Join [[]; []] = [] /\ Path.Join [[]; str "x"] = str "x"
  /\ Path.Join [str "a"; str "b/../c//d/."] = str "a/c/d"
  /\ Path.Join [str "a"; []] = str "a"
  /\ Path.Join [str "../a"; str "../../b"] = str "../../b"
  /\ Path.Join [str "/a"; str "../../b"] = str "/b".
Proof. repeat split; vm_compute; reflexivity. Qed.

Example Replace_ex :
  Strings.Replace [(str "{a}", str "{b}"); (str "{b}", str "X")] (str "{a}-{b}-{c}")
  = str "{b}-X-{c}".
Proof. vm_compute. reflexivity. Qed.

Example patterns_well_numbered :
  forallb (fun p => well_numbered (re p)) patterns = true
  /\ well_numbered pseudoVersionRE = true.
Proof. split; vm_compute; reflexivity. Qed.

Example matchStatic_ex :
  matchStatic (str "github.com/a/b/c/d") = Ok (str "github.com/a/b", str "c/d", githubURLTemplates)
  /\ matchStatic (str "go.googlesource.com/tools.git/x")
     = Ok (str "go.googlesource.com/tools", str "x",
           {| directory := str "{repo}/+/{commit}/{dir}";
              file := str "{repo}/+/{commit}/{file}";
              line := str "{repo}/+/{commit}/{file}#{line}" |})
  /\ matchStatic (str "example.com/foo/bar.git/baz") = Ok (str "example.com/foo/bar", str "baz", noTemplates)
  /\ matchStatic (str "example.com/foo") = Err NotFound
  /\ matchStatic (str "Example.com/foo.git") = Ok (str "xample.com/foo", str "t", noTemplates)
  /\ matchStatic (str "example.com/a~b/c.d/e.git") = Ok (str "c.d/e", str "om/a~b/c.d/e.git", noTemplates).
Proof. repeat split; vm_compute; reflexivity. Qed.

Example commit_ex :
  commitFromVersion (str "v0.0.0-20190101000000-abcdef123456") (str "d") = str "abcdef123456"
  /\ commitFromVersion (str "v1.2.3") (str "sub") = str "sub/v1.2.3"
  /\ commitFromVersion (str "v1.2.3") [] = str "v1.2.3"
  /\ commitFromVersion (str "v2.0.0+incompatible") [] = str "v2.0.0"
  /\ isPseudoVersion (str "v1.2.3-pre.0.20190101000000-abcdef123456") = true
  /\ isPseudoVersion (str "v1.2.3-0.20190101000000-abcdef123456") = true
  /\ isPseudoVersion (str "v1.2.3-20190101000000-abcdef123456") = false.
Proof. repeat split; vm_compute; reflexivity. Qed.

(** * Properties *)

(** ** Strings *)

Lemma HasPrefix_spec (s p : gostring) :
  Strings.HasPrefix s p = true <-> exists t, s = p ++ t.
Proof.
  revert s. induction p as [|a p IH]; intros s; simpl.
  - split; [intros _; by exists s | done].
  - destruct s as [|c s].
    + split; [discriminate | intros [t Ht]; discriminate].
    + destruct (Ascii.eqb_spec a c) as [->|Hne].
      * rewrite IH. split; intros [t Ht]; exists t; simpl in *; congruence.
      * split; [discriminate | intros [t Ht]; simpl in Ht; congruence].
Qed.

Lemma HasPrefix_app (p t : gostring) : Strings.HasPrefix (p ++ t) p = true.
Proof. apply HasPrefix_spec. eauto. Qed.

Lemma HasPrefix_prefix (s p : gostring) :
  Strings.HasPrefix s p = true <-> p `prefix_of` s.
Proof. apply HasPrefix_spec. Qed.

Lemma TrimSuffix_app (s suffix : gostring) :
  Strings.TrimSuffix (s ++ suffix) suffix = s.
Proof.
  unfold Strings.TrimSuffix, Strings.HasSuffix.
  rewrite length_app.
  replace (length s + length suffix - length suffix) with (length s) by lia.
  rewrite drop_app_length, take_app_length.
  rewrite bool_decide_eq_true_2 by done.
  destruct (length suffix <=? length s + length suffix) eqn:E; [done|].
  apply Nat.leb_gt in E. lia.
Qed.

Lemma TrimSuffix_empty (suffix : gostring) : Strings.TrimSuffix [] suffix = [].
Proof. unfold Strings.TrimSuffix. by destruct (Strings.HasSuffix [] suffix). Qed.

Lemma replace_go_skip oldnew k s :
  Strings.replace_go oldnew k s = Strings.replace_go oldnew 0 (drop k s).
Proof.
  revert k. induction s as [|c s IH]; intros [|k]; simpl; done.
Qed.

Lemma lookup_Some_inv oldnew s old new :
  Strings.lookup oldnew s = Some (old, new) ->
  (old, new) ∈ oldnew /\ Strings.HasPrefix s old = true.
Proof.
  induction oldnew as [|[o n] l IH]; simpl; [done|].
  destruct (Strings.HasPrefix s o) eqn:E.
  - intros [= -> ->]. split; [left | done].
  - intros H. destruct (IH H). split; [by right | done].
Qed.

Lemma lookup_None_iff oldnew s :
  Strings.lookup oldnew s = None <->
  forall p, p ∈ oldnew -> Strings.HasPrefix s p.1 = false.
Proof.
  induction oldnew as [|[o n] l IH]; simpl.
  - split; [intros _ p Hp; by apply elem_of_nil in Hp | done].
  - destruct (Strings.HasPrefix s o) eqn:E.
    + split; [done|]. intros H. specialize (H (o, n)). simpl in H.
      rewrite H in E; [done | left].
    + rewrite IH. split.
      * intros H p [->|Hp]%elem_of_cons; [done | by apply H].
      * intros H p Hp. apply H. by right.
Qed.

(** The replacement at the head of the input, and the step over a byte
    that starts no [old] string. *)
Lemma Replace_match oldnew old new rest :
  old <> [] ->
  Strings.lookup oldnew (old ++ rest) = Some (old, new) ->
  Strings.Replace oldnew (old ++ rest) = new ++ Strings.Replace oldnew rest.
Proof.
  intros Hne Hl. destruct old as [|c old]; [done|].
  unfold Strings.Replace. simpl. simpl in Hl. rewrite Hl.
  f_equal. rewrite replace_go_skip. simpl. rewrite Nat.sub_0_r.
  by rewrite drop_app_length.
Qed.

Lemma Replace_nomatch oldnew c s :
  Strings.lookup oldnew (c :: s) = None ->
  Strings.Replace oldnew (c :: s) = c :: Strings.Replace oldnew s.
Proof. intros Hl. unfold Strings.Replace. simpl. simpl in Hl. by rewrite Hl. Qed.

Lemma Replace_nil oldnew : Strings.Replace oldnew [] = [].
Proof. done. Qed.


Lemma lookup_unambiguous oldnew s p :
  unambiguous oldnew -> p ∈ oldnew -> Strings.HasPrefix s p.1 = true ->
  Strings.lookup oldnew s = Some p.
Proof.
  intros Hu Hp Hs. destruct (Strings.lookup oldnew s) as [[o n]|] eqn:E.
  - apply lookup_Some_inv in E as [Hq Hq']. f_equal. by apply (Hu _ _ s).
  - rewrite lookup_None_iff in E. rewrite (E p Hp) in Hs. discriminate.
Qed.

Lemma lookup_Permutation l1 l2 s :
  unambiguous l1 -> l1 ≡ₚ l2 -> Strings.lookup l1 s = Strings.lookup l2 s.
Proof.
  intros Hu Hp.
  assert (Hu2 : unambiguous l2).
  { intros p q t Hp1 Hq1. apply Hu; by rewrite Hp. }
  destruct (Strings.lookup l1 s) as [[o n]|] eqn:E.
  - apply lookup_Some_inv in E as [Hin Hs]. symmetry.
    apply lookup_unambiguous; [done | by rewrite <- Hp | done].
  - symmetry. rewrite lookup_None_iff in E. apply lookup_None_iff.
    intros p Hin. apply E. by rewrite Hp.
Qed.

Lemma replace_go_Permutation l1 l2 k s :
  unambiguous l1 -> l1 ≡ₚ l2 ->
  Strings.replace_go l1 k s = Strings.replace_go l2 k s.
Proof.
  intros Hu Hp. revert k. induction s as [|c s IH]; intros k; [done|].
  simpl. destruct k as [|k]; [|apply IH].
  rewrite (lookup_Permutation l1 l2 (c :: s) Hu Hp).
  destruct (Strings.lookup l2 (c :: s)) as [[o n]|]; by rewrite ?IH.
Qed.

(** ** Template expansion *)


Lemma elem_of_oldNew p entries :
  p ∈ oldNew entries <-> exists k v, p = (token k, v) /\ (k, v) ∈ entries.
Proof.
  unfold oldNew. rewrite list_elem_of_fmap. split.
  - intros [[k v] [-> Hin]]. by exists k, v.
  - intros (k & v & -> & Hin). by exists (k, v).
Qed.

Lemma app_sep_inj (c : ascii) (a b x y : gostring) :
  c ∉ a -> c ∉ b -> a ++ c :: x = b ++ c :: y -> a = b.
Proof.
  revert b. induction a as [|a0 a IH]; intros [|b0 b] Ha Hb Heq; simpl in *.
  - done.
  - injection Heq as -> _. exfalso. apply Hb. left.
  - injection Heq as -> _. exfalso. apply Ha. left.
  - injection Heq as -> Heq. f_equal. apply IH; [| |done].
    + intros ?. apply Ha. by right.
    + intros ?. apply Hb. by right.
Qed.

Lemma brace_free_prefix_free (m : gmap gostring gostring) :
  (forall k, is_Some (m !! k) -> brace_free k) -> tokens_prefix_free m.
Proof.
  intros Hm k1 k2 H1 H2 [t Ht]. unfold token in Ht. simpl in Ht.
  injection Ht as Ht. rewrite <- app_assoc in Ht. simpl in Ht.
  symmetry. eapply (app_sep_inj "}"); [by apply Hm | by apply Hm | exact Ht].
Qed.

Lemma list_to_map_prefix_free (l : list (gostring * gostring)) :
  Forall brace_free l.*1 -> tokens_prefix_free (list_to_map l).
Proof.
  intros Hl. apply brace_free_prefix_free. intros k [v Hk].
  apply elem_of_list_to_map_2 in Hk. rewrite Forall_forall in Hl.
  apply Hl. apply list_elem_of_fmap. by exists (k, v).
Qed.

Lemma unambiguous_oldNew (m : gmap gostring gostring) entries :
  entries ≡ₚ map_to_list m -> tokens_prefix_free m -> unambiguous (oldNew entries).
Proof.
  intros Hp Hm p q s
    (k1 & v1 & -> & H1)%elem_of_oldNew (k2 & v2 & -> & H2)%elem_of_oldNew.
  rewrite Hp in H1, H2. apply elem_of_map_to_list in H1, H2.
  intros P1%HasPrefix_prefix P2%HasPrefix_prefix. cbn [fst] in P1, P2.
  assert (k1 = k2) as ->.
  { destruct (prefix_weak_total _ _ _ P1 P2) as [P|P].
    - by apply Hm.
    - symmetry. by apply Hm. }
  congruence.
Qed.

Lemma expand_in_order_Permutation (m : gmap gostring gostring) l1 l2 s :
  tokens_prefix_free m -> l1 ≡ₚ map_to_list m -> l2 ≡ₚ map_to_list m ->
  expand_in_order s l1 = expand_in_order s l2.
Proof.
  intros Hm H1 H2. unfold expand_in_order, Strings.Replace.
  apply replace_go_Permutation.
  - by apply (unambiguous_oldNew m).
  - unfold oldNew. by rewrite H1, H2.
Qed.

Lemma token_not_nil k : token k <> [].
Proof. done. Qed.

Lemma expand_in_order_token (m : gmap gostring gostring) l k v rest :
  tokens_prefix_free m -> l ≡ₚ map_to_list m -> m !! k = Some v ->
  expand_in_order (token k ++ rest) l = v ++ expand_in_order rest l.
Proof.
  intros Hm Hl Hk. unfold expand_in_order.
  apply Replace_match; [apply token_not_nil|].
  apply lookup_unambiguous.
  - by apply (unambiguous_oldNew m).
  - apply elem_of_oldNew. exists k, v. split; [done|].
    rewrite Hl. by apply elem_of_map_to_list.
  - apply HasPrefix_app.
Qed.

Lemma expand_in_order_byte (m : gmap gostring gostring) l c rest :
  l ≡ₚ map_to_list m ->
  (forall k, is_Some (m !! k) -> ~ token k `prefix_of` c :: rest) ->
  expand_in_order (c :: rest) l = c :: expand_in_order rest l.
Proof.
  intros Hl Hno. unfold expand_in_order. apply Replace_nomatch.
  apply lookup_None_iff. intros p (k & v & -> & Hin)%elem_of_oldNew. cbn [fst].
  rewrite Hl in Hin. apply elem_of_map_to_list in Hin.
  destruct (Strings.HasPrefix (c :: rest) (token k)) eqn:E; [|done].
  apply HasPrefix_prefix in E. by destruct (Hno k (mk_is_Some _ _ Hin)).
Qed.

Section Expand.
Variable range : gmap gostring gostring -> list (gostring * gostring).
Hypothesis range_enumerates : forall m, range m ≡ₚ map_to_list m.

(** The expansion of a map literal whose keys have no closing brace may
    be computed in the order in which the literal is written. *)
Lemma expand_literal s (l : list (gostring * gostring)) :
  NoDup l.*1 -> Forall brace_free l.*1 ->
  expand range s (list_to_map l) = expand_in_order s l.
Proof.
  intros Hnd Hbf. unfold expand.
  apply (expand_in_order_Permutation (list_to_map l)).
  - by apply list_to_map_prefix_free.
  - apply range_enumerates.
  - symmetry. by apply map_to_list_to_map.
Qed.
End Expand.

Ltac decide_closed := apply (bool_decide_unpack _); vm_compute; exact I.

(** ** Claims about [expand] and the URL builders *)

(** X20: for every template and every substitution map in which no
    placeholder [{k}] starts another placeholder [{k'}] (as with the keys
    repo, commit, dir, file and line that the URL builders pass), the
    output of [expand] is the same for every iteration order of the map;
    the expansion is one left-to-right pass: a placeholder at the head of
    the template is replaced by its value, which is emitted as it is, and
    the pass goes on behind the placeholder; a byte at which no placeholder
    starts is copied. *)
Theorem expand_single_pass_any_order
  (range range' : gmap gostring gostring -> list (gostring * gostring))
  (m : gmap gostring gostring) :
  (forall m, range m ≡ₚ map_to_list m) ->
  (forall m, range' m ≡ₚ map_to_list m) ->
  tokens_prefix_free m ->
  (forall s, expand range s m = expand range' s m)
  /\ expand range [] m = []
  /\ (forall k v rest, m !! k = Some v ->
        expand range (token k ++ rest) m = v ++ expand range rest m)
  /\ (forall c rest,
        (forall k, is_Some (m !! k) -> ~ token k `prefix_of` c :: rest) ->
        expand range (c :: rest) m = c :: expand range rest m).
Proof.
  intros Hr Hr' Hm. unfold expand. repeat split.
  - intros s. by apply (expand_in_order_Permutation m).
  - intros k v rest Hk. by apply (expand_in_order_token m).
  - intros c rest Hno. by apply (expand_in_order_byte m).
Qed.

Lemma expand_single_pass_any_order_witness :
  let m : gmap gostring gostring :=
    list_to_map [(str "repo", str "{commit}"); (str "commit", str "c0ffee")] in
  tokens_prefix_free m
  /\ (forall s, expand map_to_list s m = expand (reverse ∘ map_to_list) s m)
  /\ expand map_to_list (token (str "repo") ++ str "/x") m
     = str "{commit}" ++ expand map_to_list (str "/x") m.
Proof.
  intros m.
  assert (Hm : tokens_prefix_free m).
  { apply list_to_map_prefix_free. decide_closed. }
  split; [exact Hm|].
  destruct (expand_single_pass_any_order map_to_list (reverse ∘ map_to_list) m)
    as (H1 & _ & H3 & _).
  - intros m'. reflexivity.
  - intros m'. apply reverse_Permutation.
  - exact Hm.
  - split; [exact H1|]. apply H3. vm_compute. reflexivity.
Defined.


(** C9: with the zero value of [urlTemplates] every URL builder returns
    the empty string. *)
Theorem no_templates_empty_urls
  (range : gmap gostring gostring -> list (gostring * gostring)) (i : Info) :
  templates i = noTemplates ->
  ModuleURL range i = []
  /\ forall (dir pathname : gostring) (line_ : Z),
       DirectoryURL range i dir = []
       /\ FileURL range i pathname = []
       /\ LineURL range i pathname line_ = [].
Proof.
  intros Ht. unfold ModuleURL, DirectoryURL, FileURL, LineURL, expand, expand_in_order.
  rewrite Ht. simpl. rewrite !Replace_nil, TrimSuffix_empty. done.
Qed.

Lemma no_templates_empty_urls_witness :
  let i := mkInfo (str "https://example.com/r") (str "sub") (str "v1.0.0") noTemplates in
  ModuleURL map_to_list i = []
  /\ DirectoryURL map_to_list i (str "d") = []
  /\ FileURL map_to_list i (str "f.go") = []
  /\ LineURL map_to_list i (str "f.go") 7 = [].
Proof.
  intros i.
  destruct (no_templates_empty_urls map_to_list i) as [H1 H2]; [reflexivity|].
  split; [exact H1|]. apply (H2 (str "d") (str "f.go") 7%Z).
Defined.

(** *** A placeholder in the middle of a template *)


Lemma prefix_before_sep (c : ascii) (a t b rest : gostring) :
  c ∉ a -> a ++ t = b ++ c :: rest -> a `prefix_of` b.
Proof.
  revert b. induction a as [|a0 a IH]; intros b Ha Heq.
  - apply prefix_nil.
  - destruct b as [|b0 b]; simpl in Heq.
    + injection Heq as -> _. exfalso. apply Ha. left.
    + injection Heq as -> Heq. apply prefix_cons. apply IH; [|done].
      intros ?. apply Ha. by right.
Qed.

(** A placeholder that starts inside [pre] ends inside [pre]. *)
Lemma token_no_straddle k (pre rest : gostring) :
  no_open_brace k -> pre <> [] ->
  token k `prefix_of` pre ++ "{"%char :: rest -> token k `prefix_of` pre.
Proof.
  intros Hk Hpre [t Ht]. destruct pre as [|c pre]; [done|].
  unfold token in *. simpl in *. injection Ht as Hc Ht. subst c.
  apply prefix_cons. symmetry in Ht.
  eapply (prefix_before_sep "{" _ t); [|exact Ht].
  intros [?|Hin]%elem_of_app; [done|].
  apply list_elem_of_singleton in Hin. discriminate.
Qed.

Lemma lookup_ext oldnew (s s' : gostring) :
  (forall p, p ∈ oldnew -> Strings.HasPrefix s p.1 = Strings.HasPrefix s' p.1) ->
  Strings.lookup oldnew s = Strings.lookup oldnew s'.
Proof.
  induction oldnew as [|[o n] l IH]; intros H; simpl; [done|].
  pose proof (H (o, n) ltac:(left)) as Ho. cbn [fst] in Ho. rewrite <- Ho.
  rewrite IH; [done|]. intros p Hp. apply H. by right.
Qed.

Lemma HasPrefix_eq_iff (s s' p : gostring) :
  (p `prefix_of` s <-> p `prefix_of` s') ->
  Strings.HasPrefix s p = Strings.HasPrefix s' p.
Proof.
  intros H. destruct (Strings.HasPrefix s p) eqn:E1, (Strings.HasPrefix s' p) eqn:E2;
    try done.
  - apply HasPrefix_prefix, H, HasPrefix_prefix in E1. congruence.
  - apply HasPrefix_prefix, H, HasPrefix_prefix in E2. congruence.
Qed.

Lemma replace_go_app_token oldnew (pre rest : gostring) k v :
  (forall p, p ∈ oldnew -> exists k', p.1 = token k' /\ no_open_brace k') ->
  Strings.lookup oldnew (token k ++ rest) = Some (token k, v) ->
  forall skip, skip <= length pre ->
    Strings.replace_go oldnew skip (pre ++ token k ++ rest)
    = Strings.replace_go oldnew skip pre ++ v ++ Strings.replace_go oldnew 0 rest.
Proof.
  intros Hold Hk. induction pre as [|c pre IH]; intros skip Hskip.
  - assert (skip = 0) as -> by (simpl in Hskip; lia).
    apply (Replace_match oldnew (token k) v rest); [apply token_not_nil | done].
  - destruct skip as [|skip]; [|simpl in Hskip |- *; apply IH; lia].
    assert (Hl : Strings.lookup oldnew ((c :: pre) ++ token k ++ rest)
                 = Strings.lookup oldnew (c :: pre)).
    { apply lookup_ext. intros p Hp. destruct (Hold p Hp) as (k' & -> & Hk').
      apply HasPrefix_eq_iff. split.
      - intros H. apply (token_no_straddle k' (c :: pre) ((k ++ str "}") ++ rest));
          [done | done | exact H].
      - intros H. by apply (prefix_app_r _ (c :: pre) (token k ++ rest)). }
    change (Strings.replace_go oldnew 0 ((c :: pre) ++ token k ++ rest))
      with (match Strings.lookup oldnew ((c :: pre) ++ token k ++ rest) with
            | Some (old, new) =>
                new ++ Strings.replace_go oldnew (length old - 1) (pre ++ token k ++ rest)
            | None => c :: Strings.replace_go oldnew 0 (pre ++ token k ++ rest)
            end).
    change (Strings.replace_go oldnew 0 (c :: pre))
      with (match Strings.lookup oldnew (c :: pre) with
            | Some (old, new) => new ++ Strings.replace_go oldnew (length old - 1) pre
            | None => c :: Strings.replace_go oldnew 0 pre
            end).
    rewrite Hl. destruct (Strings.lookup oldnew (c :: pre)) as [[o n]|] eqn:E.
    + rewrite <- app_assoc. f_equal. apply IH.
      apply lookup_Some_inv in E as [_ Ho]. apply HasPrefix_prefix in Ho.
      apply prefix_length in Ho. simpl in Ho. lia.
    + simpl. f_equal. apply IH. lia.
Qed.

Lemma expand_in_order_app_token (l : list (gostring * gostring)) pre rest k v :
  NoDup l.*1 -> Forall brace_free l.*1 -> Forall no_open_brace l.*1 ->
  (k, v) ∈ l ->
  expand_in_order (pre ++ token k ++ rest) l
  = expand_in_order pre l ++ v ++ expand_in_order rest l.
Proof.
  intros Hnd Hbf Hob Hin. unfold expand_in_order, Strings.Replace.
  apply replace_go_app_token; [| |lia].
  - intros p (k' & v' & -> & Hin')%elem_of_oldNew. exists k'. split; [done|].
    rewrite Forall_forall in Hob. apply Hob. apply list_elem_of_fmap. by exists (k', v').
  - apply lookup_unambiguous.
    + apply (unambiguous_oldNew (list_to_map l)).
      * symmetry. by apply map_to_list_to_map.
      * by apply list_to_map_prefix_free.
    + apply elem_of_oldNew. by exists k, v.
    + apply HasPrefix_app.
Qed.

(** *** The templates of the "tree/blob" convention *)

Section Github.
Variable range : gmap gostring gostring -> list (gostring * gostring).
Hypothesis range_enumerates : forall m, range m ≡ₚ map_to_list m.
Variable i : Info.
Hypothesis github : templates i = githubURLTemplates.

Lemma github_DirectoryURL dir :
  DirectoryURL range i dir
  = Strings.TrimSuffix
      (RepoURL i ++ str "/tree/" ++ commit i ++ str "/" ++ Path.Join [moduleDir i; dir])
      (str "/").
Proof.
  unfold DirectoryURL. rewrite github.
  rewrite expand_literal; [|done|decide_closed|decide_closed].
  f_equal.
  transitivity (RepoURL i ++ str "/tree/" ++ commit i ++ str "/"
                ++ Path.Join [moduleDir i; dir] ++ []);
    [reflexivity | by rewrite app_nil_r].
Qed.

Lemma github_FileURL pathname :
  FileURL range i pathname
  = RepoURL i ++ str "/blob/" ++ commit i ++ str "/" ++ Path.Join [moduleDir i; pathname].
Proof.
  unfold FileURL. rewrite github.
  rewrite expand_literal; [|done|decide_closed|decide_closed].
  transitivity (RepoURL i ++ str "/blob/" ++ commit i ++ str "/"
                ++ Path.Join [moduleDir i; pathname] ++ []);
    [reflexivity | by rewrite app_nil_r].
Qed.

Lemma github_LineURL pathname line_ :
  LineURL range i pathname line_
  = RepoURL i ++ str "/blob/" ++ commit i ++ str "/"
    ++ Path.Join [moduleDir i; pathname] ++ str "#L" ++ Strconv.Itoa line_.
Proof.
  unfold LineURL. rewrite github.
  rewrite expand_literal; [|done|decide_closed|decide_closed].
  transitivity (RepoURL i ++ str "/blob/" ++ commit i ++ str "/"
                ++ Path.Join [moduleDir i; pathname] ++ str "#L"
                ++ Strconv.Itoa line_ ++ []);
    [reflexivity | by rewrite app_nil_r].
Qed.
End Github.

(** *** [strconv.Itoa] *)

Lemma Itoa_neg (p : positive) :
  Strconv.Itoa (Z.neg p) = "-"%char :: Strconv.Itoa (Z.pos p).
Proof. reflexivity. Qed.

(** The string of [Itoa] reads back, as a decimal number, as the integer. *)
Lemma Itoa_decimal (z : Z) :
  Z.of_int <$> NilZero.int_of_string (String.string_of_list_ascii (Strconv.Itoa z))
  = Some z.
Proof.
  unfold Strconv.Itoa, str. rewrite String.string_of_list_ascii_of_string.
  rewrite NilZero.isi.
  - simpl. f_equal. apply DecimalZ.of_to.
  - destruct z; simpl; try discriminate.
    intros [= H]. by apply DecimalPos.Unsigned.to_uint_nonnil in H.
  - destruct z; simpl; try discriminate.
    intros [= H]. by apply DecimalPos.Unsigned.to_uint_nonnil in H.
Qed.

(** C10: [LineURL] is defined for every integer line: whatever the line,
    the [{line}] placeholder of the line template is replaced by the signed
    decimal string of the line ("0" for zero, a leading "-" for a negative
    line), with no check of the sign. *)
Theorem LineURL_any_line
  (range : gmap gostring gostring -> list (gostring * gostring))
  (i : Info) (pathname : gostring) (line_ : Z) (pre post : gostring) :
  (forall m, range m ≡ₚ map_to_list m) ->
  line (templates i) = pre ++ token (str "line") ++ post ->
  let subst : gmap gostring gostring :=
    list_to_map [(str "repo", RepoURL i); (str "commit", commit i);
                 (str "file", Path.Join [moduleDir i; pathname]);
                 (str "line", Strconv.Itoa line_)] in
  LineURL range i pathname line_
  = expand range pre subst ++ Strconv.Itoa line_ ++ expand range post subst
  /\ Z.of_int <$> NilZero.int_of_string
       (String.string_of_list_ascii (Strconv.Itoa line_)) = Some line_
  /\ Strconv.Itoa 0 = str "0"
  /\ Strconv.Itoa (-1) = str "-1"
  /\ (forall p, Strconv.Itoa (Z.neg p) = "-"%char :: Strconv.Itoa (Z.pos p)).
Proof.
  intros Hr Ht subst. split; [|split; [apply Itoa_decimal | done]].
  unfold LineURL. fold subst. rewrite Ht. unfold subst.
  rewrite !(expand_literal range Hr); try done; try decide_closed.
  apply expand_in_order_app_token; try done; try decide_closed.
  do 3 right. left.
Qed.

Lemma LineURL_any_line_witness :
  let i := mkInfo (str "https://github.com/a/b") [] (str "v1.0.0") githubURLTemplates in
  LineURL map_to_list i (str "f.go") (-3)
  = expand map_to_list (str "{repo}/blob/{commit}/{file}#L")
      (list_to_map [(str "repo", RepoURL i); (str "commit", commit i);
                    (str "file", Path.Join [moduleDir i; str "f.go"]);
                    (str "line", Strconv.Itoa (-3))])
    ++ str "-3" ++ [].
Proof.
  intros i.
  destruct (LineURL_any_line map_to_list i (str "f.go") (-3)
              (str "{repo}/blob/{commit}/{file}#L") []) as [H _].
  - intros m. reflexivity.
  - vm_compute. reflexivity.
  - exact H.
Defined.

(** ** Claims about [moduleInfo] *)

Section ModuleInfo.
Variable range : gmap gostring gostring -> list (gostring * gostring).
Hypothesis range_enumerates : forall m, range m ≡ₚ map_to_list m.
Variable stdlib_ModulePath : gostring.
Variable stdlib_TagForVersion : gostring -> res gostring.
Variable stdlib_Directory : gostring -> gostring.
Variable stdlib_GoSourceRepoURL : gostring.
Variable fetchMeta : gostring -> res sourceMeta.
Variable url_Parse : gostring -> res URL.

(** The [Info] of a module path that the first pattern of the table
    matches, with what the URL builders make of it at the module root. *)
Lemma moduleInfo_github id version matches repo dir :
  id <> stdlib_ModulePath ->
  FindStringSubmatch github_re id = Some matches ->
  match_result (mkPattern github_re githubURLTemplates) id matches
  = (repo, dir, githubURLTemplates) ->
  isPseudoVersion (Strings.TrimSuffix version (str "+incompatible")) = false ->
  dir = [] ->
  let info := {| RepoURL := str "https://" ++ repo; moduleDir := [];
                 commit := Strings.TrimSuffix version (str "+incompatible");
                 templates := githubURLTemplates |} in
  moduleInfo stdlib_ModulePath stdlib_TagForVersion stdlib_Directory
    stdlib_GoSourceRepoURL fetchMeta url_Parse id version = (Ok info, [])
  /\ DirectoryURL range info []
     = str "https://" ++ repo ++ str "/tree/"
       ++ Strings.TrimSuffix version (str "+incompatible")
  /\ FileURL range info (str "x")
     = str "https://" ++ repo ++ str "/blob/"
       ++ Strings.TrimSuffix version (str "+incompatible") ++ str "/x".
Proof.
  intros Hstd Hm Hres Hps -> info. split; [|split].
  - unfold moduleInfo. rewrite bool_decide_eq_false_2 by done.
    unfold matchStatic, patterns, matchStatic_in.
    cbn [re]. rewrite Hm, Hres.
    unfold commitFromVersion. rewrite Hps. done.
  - rewrite (github_DirectoryURL range range_enumerates info eq_refl).
    change (Path.Join [moduleDir info; []]) with (@nil ascii).
    rewrite app_nil_r.
    unfold info; cbn [RepoURL commit]. rewrite !app_assoc. rewrite TrimSuffix_app. by rewrite <- !app_assoc.
  - rewrite (github_FileURL range range_enumerates info eq_refl).
    change (Path.Join [moduleDir info; str "x"]) with (str "x").
    unfold info; cbn [RepoURL commit]. by rewrite <- !app_assoc.
Qed.
End ModuleInfo.

(** C6, as the code has it: for a module path that the "tree/blob"
    (github) pattern matches with captured repo [R] and an empty module
    directory, and a version [V] that is not a pseudo-version, the [Info]
    of [moduleInfo] gives [DirectoryURL("")] = "https://R/tree/V'" and
    [FileURL("x")] = "https://R/blob/V'/x", where [V'] is [V] without a
    trailing "+incompatible". *)
Theorem github_tree_blob_urls
  (range : gmap gostring gostring -> list (gostring * gostring))
  (stdlib_ModulePath : gostring) (stdlib_TagForVersion : gostring -> res gostring)
  (stdlib_Directory : gostring -> gostring) (stdlib_GoSourceRepoURL : gostring)
  (fetchMeta : gostring -> res sourceMeta) (url_Parse : gostring -> res URL)
  (id version : gostring) (matches : list gostring) (R : gostring) :
  (forall m, range m ≡ₚ map_to_list m) ->
  id <> stdlib_ModulePath ->
  FindStringSubmatch github_re id = Some matches ->
  match_result (mkPattern github_re githubURLTemplates) id matches
  = (R, [], githubURLTemplates) ->
  isPseudoVersion (Strings.TrimSuffix version (str "+incompatible")) = false ->
  exists info,
    moduleInfo stdlib_ModulePath stdlib_TagForVersion stdlib_Directory
      stdlib_GoSourceRepoURL fetchMeta url_Parse id version = (Ok info, [])
    /\ DirectoryURL range info []
       = str "https://" ++ R ++ str "/tree/"
         ++ Strings.TrimSuffix version (str "+incompatible")
    /\ FileURL range info (str "x")
       = str "https://" ++ R ++ str "/blob/"
         ++ Strings.TrimSuffix version (str "+incompatible") ++ str "/x".
Proof.
  intros Hr Hstd Hm Hres Hps. eexists.
  by apply (moduleInfo_github range Hr _ _ _ _ _ _ id version matches R []).
Qed.

Lemma github_tree_blob_urls_witness :
  exists info,
    moduleInfo (str "std") (fun _ => Err NotFound) (fun _ => []) []
      (fun _ => Err NotFound) (fun _ => Err NotFound)
      (str "github.com/a/b") (str "v1.0.0") = (Ok info, [])
    /\ DirectoryURL map_to_list info [] = str "https://github.com/a/b/tree/v1.0.0"
    /\ FileURL map_to_list info (str "x") = str "https://github.com/a/b/blob/v1.0.0/x".
Proof.
  apply (github_tree_blob_urls map_to_list (str "std") (fun _ => Err NotFound)
           (fun _ => []) [] (fun _ => Err NotFound) (fun _ => Err NotFound)
           (str "github.com/a/b") (str "v1.0.0")
           [str "github.com/a/b"; str "github.com/a/b"] (str "github.com/a/b")).
  - intros m. reflexivity.
  - vm_compute. discriminate.
  - vm_compute. reflexivity.
  - vm_compute. reflexivity.
  - vm_compute. reflexivity.
Defined.

(** C6, as stated, fails for the tagged version "v2.0.0+incompatible": the
    URLs carry the tag "v2.0.0", not the version. *)
Lemma github_incompatible_version_url :
  let id := str "github.com/a/b" in
  let version := str "v2.0.0+incompatible" in
  FindStringSubmatch github_re id = Some [id; id]
  /\ match_result (mkPattern github_re githubURLTemplates) id [id; id]
     = (id, [], githubURLTemplates)
  /\ isPseudoVersion version = false
  /\ isPseudoVersion (Strings.TrimSuffix version (str "+incompatible")) = false
  /\ exists info,
       moduleInfo (str "std") (fun _ => Err NotFound) (fun _ => []) []
         (fun _ => Err NotFound) (fun _ => Err NotFound) id version = (Ok info, [])
       /\ moduleDir info = []
       /\ DirectoryURL map_to_list info [] = str "https://github.com/a/b/tree/v2.0.0"
       /\ DirectoryURL map_to_list info []
          <> str "https://" ++ id ++ str "/tree/" ++ version
       /\ FileURL map_to_list info (str "x") = str "https://github.com/a/b/blob/v2.0.0/x"
       /\ FileURL map_to_list info (str "x")
          <> str "https://" ++ id ++ str "/blob/" ++ version ++ str "/x".
Proof.
  intros id version. repeat split; try (vm_compute; reflexivity).
  eexists. split; [vm_compute; reflexivity|].
  repeat split; try (vm_compute; reflexivity); vm_compute; discriminate.
Qed.

(** ** Claims about [commitFromVersion] *)

(** C4: for a version whose text [v], after the stripping of a trailing
    "+incompatible", is not a pseudo-version, the commit is [dir + "/" + v]
    for a non-empty [dir], and [v] for an empty [dir]; [v] is the version
    itself when the version has no such suffix. *)
Theorem commitFromVersion_tagged (version dir : gostring) :
  let v := Strings.TrimSuffix version (str "+incompatible") in
  isPseudoVersion v = false ->
  (dir <> [] -> commitFromVersion version dir = dir ++ str "/" ++ v)
  /\ (dir = [] -> commitFromVersion version dir = v)
  /\ (Strings.HasSuffix version (str "+incompatible") = false -> v = version).
Proof.
  intros v Hv. unfold commitFromVersion. fold v. rewrite Hv. split; [|split].
  - intros Hd. by rewrite bool_decide_eq_true_2.
  - intros ->. done.
  - intros Hs. unfold v, Strings.TrimSuffix. by rewrite Hs.
Qed.

Lemma commitFromVersion_tagged_witness :
  commitFromVersion (str "v1.2.3") (str "sub") = str "sub/v1.2.3"
  /\ commitFromVersion (str "v1.2.3") [] = str "v1.2.3".
Proof.
  split.
  - apply (commitFromVersion_tagged (str "v1.2.3") (str "sub"));
      [vm_compute; reflexivity | discriminate].
  - apply (commitFromVersion_tagged (str "v1.2.3") []);
      [vm_compute; reflexivity | reflexivity].
Defined.

(** ** Claims about [matchStatic] and the table *)

Lemma matchStatic_in_app table1 table2 id :
  Forall (fun q => FindStringSubmatch (re q) id = None) table1 ->
  matchStatic_in (table1 ++ table2) id = matchStatic_in table2 id.
Proof.
  induction 1 as [|q table1 Hq _ IH]; simpl; [done|]. by rewrite Hq.
Qed.

Lemma matchStatic_in_NotFound table id :
  matchStatic_in table id = Err NotFound
  <-> Forall (fun q => FindStringSubmatch (re q) id = None) table.
Proof.
  induction table as [|q table IH]; simpl.
  - split; [by constructor | done].
  - destruct (FindStringSubmatch (re q) id) eqn:E.
    + split; [done | intros [? _]%Forall_cons_1; congruence].
    + rewrite IH. split; [by constructor | by intros [_ ?]%Forall_cons_1].
Qed.

(** C5: the patterns are tried in the order of the table and the first one
    that matches decides the result, whatever the later patterns match: when
    no pattern before [p] matches the identifier and [p] does, [matchStatic]
    returns the repo, the directory and the templates of [p]. *)
Theorem matchStatic_first_match
  (table pre post : list pattern) (p : pattern) (id : gostring)
  (matches : list gostring) :
  table = pre ++ p :: post ->
  Forall (fun q => FindStringSubmatch (re q) id = None) pre ->
  FindStringSubmatch (re p) id = Some matches ->
  matchStatic_in table id = Ok (match_result p id matches).
Proof.
  intros -> Hpre Hp. rewrite matchStatic_in_app by done. simpl. by rewrite Hp.
Qed.

(** The first pattern wins over the last one, which matches a longer text. *)
Lemma matchStatic_first_match_witness :
  let id := str "github.com/a/b/c.git/d" in
  FindStringSubmatch github_re id = Some [str "github.com/a/b"; str "github.com/a/b"]
  /\ (FindStringSubmatch general_re id ≫= head) = Some (str "github.com/a/b/c.git")
  /\ matchStatic id = Ok (str "github.com/a/b", str "c.git/d", githubURLTemplates).
Proof.
  intros id. split; [vm_compute; reflexivity|]. split; [vm_compute; reflexivity|].
  apply (matchStatic_first_match patterns [] (tail patterns)
           (mkPattern github_re githubURLTemplates) id
           [str "github.com/a/b"; str "github.com/a/b"]).
  - reflexivity.
  - constructor.
  - vm_compute. reflexivity.
Defined.

(** C1 does not hold of the code: the last pattern of the table is not
    anchored at the start of the text.  For the module path below no
    pattern matches at offset 0; the last pattern matches "c.d/e.git" at
    offset 16, and [matchStatic] returns that match as if it had been found
    at the start: the matched text is not a prefix of the identifier and
    the directory is the identifier without its first 9 bytes. *)
Theorem matchStatic_match_not_at_start :
  let id := str "example.com/a~b/c.d/e.git" in
  (fun p => match_start (re p) id) <$> patterns = [None; None; None; Some 16]
  /\ FindStringSubmatch general_re id
     = Some [str "c.d/e.git"; str "c.d/e"; str "c."; []; str "/e"; str "git"]
  /\ ~ str "c.d/e.git" `prefix_of` id
  /\ matchStatic id = Ok (str "c.d/e", str "om/a~b/c.d/e.git", noTemplates)
  /\ matchStatic (str "Example.com/foo.git") = Ok (str "xample.com/foo", str "t", noTemplates).
Proof.
  intros id. repeat split; try (vm_compute; reflexivity).
  intros [t Ht]. vm_compute in Ht. discriminate.
Qed.

Lemma has_repo_group_spec names :
  has_repo_group names = true <-> "repo"%string ∈ names.
Proof.
  unfold has_repo_group. rewrite existsb_exists. split.
  - intros (n & Hin & Heq). apply String.eqb_eq in Heq as <-.
    by apply list_elem_of_In.
  - intros Hin. exists "repo"%string. split; [by apply list_elem_of_In|].
    apply String.eqb_refl.
Qed.

(** C8: [init] panics exactly for the tables that have a pattern without a
    group named "repo", and does not panic for the table of the package,
    every pattern of which has the group. *)
Theorem init_checks_repo_group :
  (forall table,
     (exists msg, init_on table = Panic msg)
     <-> Exists (fun p => "repo"%string ∉ SubexpNames (re p)) table)
  /\ (forall table,
        init_on table = Initialized
        <-> Forall (fun p => "repo"%string ∈ SubexpNames (re p)) table)
  /\ Forall (fun p => "repo"%string ∈ SubexpNames (re p)) patterns
  /\ init = Initialized.
Proof.
  assert (H2 : forall table,
    init_on table = Initialized
    <-> Forall (fun p => "repo"%string ∈ SubexpNames (re p)) table).
  { induction table as [|p table IH]; cbn [init_on].
    - split; [by constructor | done].
    - destruct (has_repo_group (SubexpNames (re p))) eqn:E.
      + apply has_repo_group_spec in E. rewrite IH.
        split; [by constructor | by intros [_ ?]%Forall_cons_1].
      + split; [done|]. intros [Hin%has_repo_group_spec _]%Forall_cons_1.
        congruence. }
  split; [|split; [exact H2 | split]].
  - intros table. split.
    + intros [msg Hmsg].
      apply (not_Forall_Exists (fun p => "repo"%string ∈ SubexpNames (re p))).
      intros Hall%H2. congruence.
    + intros Hex. destruct (init_on table) as [|msg] eqn:E; [|by exists msg].
      apply H2 in E.
      by apply (Exists_not_Forall (fun p => "repo"%string ∈ SubexpNames (re p))) in Hex.
  - apply H2. reflexivity.
  - reflexivity.
Qed.

(** ** Claims about [moduleInfoDynamic] *)

(** C7: when the meta tags are fetched, the repo URL parses and no pattern
    of the table matches it, [moduleInfoDynamic] returns an [Info] and no
    error; the templates of the [Info] are the zero value, and the only
    trace of the gap is one message in the log. *)
Theorem moduleInfoDynamic_unknown_host
  (fetchMeta : gostring -> res sourceMeta) (url_Parse : gostring -> res URL)
  (modulePath version : gostring) (meta : sourceMeta) (rurl : URL) :
  fetchMeta modulePath = Ok meta ->
  url_Parse (repoURL meta) = Ok rurl ->
  matchStatic (Path.Join [Hostname rurl; Path rurl]) = Err NotFound ->
  exists info,
    moduleInfoDynamic fetchMeta url_Parse modulePath version
    = (Ok info, [NoTemplates (repoURL meta) (Some NotFound)])
    /\ templates info = noTemplates
    /\ RepoURL info = Strings.TrimSuffix (repoURL meta) (str "/")
    /\ moduleDir info
       = Strings.TrimPrefix
           (Strings.TrimPrefix modulePath (repoRootPrefix meta)) (str "/")
    /\ commit info = commitFromVersion version (moduleDir info).
Proof.
  intros Hf Hu Hm. unfold moduleInfoDynamic. rewrite Hf, Hu, Hm.
  eexists. split; [reflexivity|]. repeat split.
Qed.

Lemma moduleInfoDynamic_unknown_host_witness :
  let meta := mkMeta (str "example.org/a") (str "https://git.example.org/a/") in
  matchStatic (str "git.example.org/a") = Err NotFound
  /\ exists info,
       moduleInfoDynamic (fun _ => Ok meta)
         (fun _ => Ok (mkURL (str "git.example.org") (str "/a/")))
         (str "example.org/a/b") (str "v1.0.0")
       = (Ok info, [NoTemplates (str "https://git.example.org/a/") (Some NotFound)])
       /\ templates info = noTemplates
       /\ RepoURL info = str "https://git.example.org/a"
       /\ moduleDir info = str "b"
       /\ commit info = str "b/v1.0.0".
Proof.
  intros meta. split; [vm_compute; reflexivity|].
  destruct (moduleInfoDynamic_unknown_host (fun _ => Ok meta)
              (fun _ => Ok (mkURL (str "git.example.org") (str "/a/")))
              (str "example.org/a/b") (str "v1.0.0") meta
              (mkURL (str "git.example.org") (str "/a/")))
    as (info & H1 & H2 & H3 & H4 & H5).
  - reflexivity.
  - reflexivity.
  - vm_compute. reflexivity.
  - exists info. split; [exact H1|]. split; [exact H2|].
    split; [rewrite H3; vm_compute; reflexivity|].
    split; [rewrite H4; vm_compute; reflexivity|].
    rewrite H5, H4. vm_compute. reflexivity.
Defined.

(** ** The backtracking search finds a match exactly when there is one *)

Section Engine.
Import Lang.

Lemma is_Some_None_inv {A} : ~ is_Some (@None A).
Proof. by intros [x ?]. Qed.

Lemma or_else_is_Some a b : is_Some (or_else a b) <-> is_Some a \/ is_Some b.
Proof.
  destruct a as [x|]; simpl.
  - split; [by left | by intros _; exists x].
  - split; [by right | by intros [[]%is_Some_None_inv|]].
Qed.


Lemma realises_uniform body L k :
  realises body L -> uniform k -> uniform (fun s caps => body s caps k).
Proof.
  intros Hb Hk s caps caps' H. apply Hb in H as (t & Ht & Hs); [|done].
  apply Hb; [done|]. exists t. split; [done|]. by apply (Hk _ caps).
Qed.

Lemma loop_realises greedy body L fuel :
  realises body L ->
  forall s caps k, length s < fuel -> uniform k ->
    (is_Some (loop greedy body fuel s caps k)
     <-> exists s', star L s s' /\ is_Some (k s' caps)).
Proof.
  intros Hb. induction fuel as [|fuel IH]; intros s caps k Hlen Hk; [lia|].
  set (K := fun (s' : gostring) (caps' : captures) =>
              if length s' <? length s then loop greedy body fuel s' caps' k
              else None).
  assert (HK : uniform K).
  { intros t c c'. unfold K. destruct (length t <? length s) eqn:E; [|done].
    apply Nat.ltb_lt in E. rewrite !IH by (done || lia).
    intros (s' & Hs' & Hok). exists s'. split; [done|]. by apply (Hk _ c). }
  assert (Hbody : is_Some (body s caps K)
                  <-> exists t, L s t /\ length t < length s
                                /\ exists s', star L t s' /\ is_Some (k s' caps)).
  { rewrite (Hb s caps K HK). split.
    - intros (t & Ht & Hok). exists t. split; [done|]. unfold K in Hok.
      destruct (length t <? length s) eqn:E; [|by apply is_Some_None_inv in Hok].
      apply Nat.ltb_lt in E. split; [done|]. apply IH in Hok; [done|lia|done].
    - intros (t & Ht & Hlt & Hok). exists t. split; [done|]. unfold K.
      rewrite (proj2 (Nat.ltb_lt _ _) Hlt). apply IH; [lia|done|done]. }
  assert (Hloop : is_Some (loop greedy body (S fuel) s caps k)
                  <-> is_Some (body s caps K) \/ is_Some (k s caps)).
  { simpl. fold K. destruct greedy.
    - apply (or_else_is_Some (body s caps K) (k s caps)).
    - rewrite (or_comm (is_Some (body s caps K))).
      apply (or_else_is_Some (k s caps) (body s caps K)). }
  rewrite Hloop, Hbody. split.
  - intros [(t & Ht & Hlt & s' & Hs' & Hok)|Hok].
    + exists s'. split; [by eapply star_step|done].
    + exists s. split; [apply star_refl|done].
  - intros (s' & Hs' & Hok). inversion Hs' as [|? t ? Ht Hlt Hst]; subst.
    + by right.
    + left. exists t. repeat split; [done..|]. by exists s'.
Qed.

Lemma times_realises body L count :
  realises body L -> realises (times count body) (iter count L).
Proof.
  intros Hb. induction count as [|count IH]; intros s caps k Hk; simpl.
  - split; [intros H; by exists s | by intros (t & -> & H)].
  - rewrite (Hb s caps _ (realises_uniform _ _ k IH Hk)). split.
    + intros (t & Ht & Hok). apply IH in Hok as (s' & Hs' & Hok); [|done].
      exists s'. split; [by exists t | done].
    + intros (s' & (t & Ht & Hs') & Hok). exists t. split; [done|].
      apply IH; [done|]. by exists s'.
Qed.

Lemma m_realises n r : realises (m n r) (lang n r).
Proof.
  induction r as [|l|cs|cs| | | |r1 IH1 r2 IH2|r1 IH1 r2 IH2
                  |r IH|r IH|r IH|r IH|count r IH|i name r IH];
    intros s caps k Hk; cbn [m lang].
  - split; [intros H; by exists s | by intros (t & -> & H)].
  - destruct (Strings.HasPrefix s l) eqn:E.
    + apply HasPrefix_spec in E as [t ->]. rewrite drop_app_length. split.
      * intros H. by exists t.
      * intros (t' & Ht' & H). by apply app_inv_head in Ht' as <-.
    + split; [by intros []%is_Some_None_inv|].
      intros (t & -> & _). by rewrite HasPrefix_app in E.
  - destruct s as [|c s].
    + split; [by intros []%is_Some_None_inv | by intros (t & (c & ? & _) & _)].
    + destruct ((code c <? 128)%N && in_class cs c) eqn:E.
      * split; [intros H; exists s; split; [by exists c | done]|].
        by intros (t & (c' & [= <- <-] & _) & Hok).
      * split; [by intros []%is_Some_None_inv|].
        intros (t & (c' & [= <- <-] & E') & _). congruence.
  - destruct s as [|c s].
    + split; [by intros []%is_Some_None_inv | by intros (t & (c & ? & ? & _) & _)].
    + destruct ((code c <? 128)%N && in_class cs c) eqn:E.
      * split; [by intros []%is_Some_None_inv|].
        intros (t & (c' & s' & [= <- <-] & E' & _) & _). congruence.
      * split.
        -- intros H. eexists. split; [|exact H]. by exists c, s.
        -- by intros (t & (c' & s' & _ & _ & ->) & H).
  - destruct s as [|c s].
    + split; [by intros []%is_Some_None_inv | by intros (t & (c & ? & ? & _) & _)].
    + destruct (Ascii.eqb c "010") eqn:E.
      * split; [by intros []%is_Some_None_inv|].
        intros (t & (c' & s' & [= <- <-] & E' & _) & _). congruence.
      * split.
        -- intros H. eexists. split; [|exact H]. by exists c, s.
        -- by intros (t & (c' & s' & _ & _ & ->) & H).
  - destruct (length s =? n) eqn:E.
    + apply Nat.eqb_eq in E. split; [intros H; by exists s|].
      by intros (t & [-> _] & H).
    + apply Nat.eqb_neq in E. split; [by intros []%is_Some_None_inv|].
      by intros (t & [_ ?] & _).
  - destruct s as [|c s].
    + split; [intros H; by exists [] | by intros (t & [-> _] & H)].
    + split; [by intros []%is_Some_None_inv | by intros (t & [_ ?] & _)].
  - rewrite (IH1 s caps _ (realises_uniform _ _ k IH2 Hk)). split.
    + intros (t & Ht & Hok). apply IH2 in Hok as (s' & Hs' & Hok); [|done].
      exists s'. split; [by exists t | done].
    + intros (s' & (t & Ht & Hs') & Hok). exists t. split; [done|].
      apply IH2; [done|]. by exists s'.
  - rewrite or_else_is_Some, (IH1 s caps k Hk), (IH2 s caps k Hk). split.
    + intros [(t & Ht & Hok)|(t & Ht & Hok)]; exists t; eauto.
    + intros (t & [Ht|Ht] & Hok); [left | right]; by exists t.
  - apply (loop_realises true (m n r) (lang n r)); [done | lia | done].
  - assert (HK : uniform (fun s' caps' =>
                   loop true (m n r) (S (length s')) s' caps' k)).
    { intros t c c'.
      rewrite !(loop_realises true (m n r) (lang n r)) by (done || lia).
      intros (s' & Hs' & Hok). exists s'. split; [done|]. by apply (Hk _ c). }
    rewrite (IH s caps _ HK). split.
    + intros (t & Ht & Hok).
      apply (loop_realises true (m n r) (lang n r)) in Hok
        as (s' & Hs' & Hok); [|done|lia|done].
      exists s'. split; [by exists t | done].
    + intros (s' & (t & Ht & Hs') & Hok). exists t. split; [done|].
      apply (loop_realises true (m n r) (lang n r)); [done|lia|done|].
      by exists s'.
  - assert (HK : uniform (fun s' caps' =>
                   loop false (m n r) (S (length s')) s' caps' k)).
    { intros t c c'.
      rewrite !(loop_realises false (m n r) (lang n r)) by (done || lia).
      intros (s' & Hs' & Hok). exists s'. split; [done|]. by apply (Hk _ c). }
    rewrite (IH s caps _ HK). split.
    + intros (t & Ht & Hok).
      apply (loop_realises false (m n r) (lang n r)) in Hok
        as (s' & Hs' & Hok); [|done|lia|done].
      exists s'. split; [by exists t | done].
    + intros (s' & (t & Ht & Hs') & Hok). exists t. split; [done|].
      apply (loop_realises false (m n r) (lang n r)); [done|lia|done|].
      by exists s'.
  - rewrite or_else_is_Some, (IH s caps k Hk). split.
    + intros [(t & Ht & Hok)|Hok]; [exists t; eauto | exists s; eauto].
    + intros (t & [Ht| ->] & Hok); [left; by exists t | by right].
  - by apply (times_realises (m n r) (lang n r)).
  - assert (HK : uniform (fun s' caps' =>
                   k s' (<[i := Some (n - length s, n - length s')]> caps'))).
    { intros t c c'. apply Hk. }
    rewrite (IH s caps _ HK). split.
    + intros (t & Ht & Hok). exists t. split; [done|]. by eapply Hk.
    + intros (t & Ht & Hok). exists t. split; [done|]. by eapply Hk.
Qed.
End Engine.

(** ** Runs of a class *)

Section Runs.
Import Lang.
Variable n : nat.


Lemma star_class cs s s' :
  star (lang n (Class cs)) s s' <-> exists run, s = run ++ s' /\ Forall (inside cs) run.
Proof.
  split.
  - induction 1 as [s|s t u (c & -> & Hc) _ _ (run & -> & Hrun)].
    + by exists [].
    + exists (c :: run). split; [done | by constructor].
  - intros (run & -> & Hrun). induction Hrun as [|c run Hc _ IH].
    + apply star_refl.
    + apply (star_step _ _ (run ++ s')); [by exists c | simpl; lia | done].
Qed.

Lemma plus_class cs s s' :
  lang n (Plus (Class cs)) s s'
  <-> exists run, run <> [] /\ s = run ++ s' /\ Forall (inside cs) run.
Proof.
  split.
  - intros (t & (c & -> & Hc) & (run & -> & Hrun)%star_class).
    exists (c :: run). split; [done|]. split; [done | by constructor].
  - intros (run & Hne & -> & Hrun). destruct Hrun as [|c run Hc Hrun]; [done|].
    exists (run ++ s'). split; [by exists c|]. apply star_class. by exists run.
Qed.

Lemma iter_class count cs s s' :
  iter count (lang n (Class cs)) s s'
  <-> exists run, length run = count /\ s = run ++ s' /\ Forall (inside cs) run.
Proof.
  revert s. induction count as [|count IH]; intros s; simpl.
  - split.
    + intros ->. by exists [].
    + intros (run & ->%nil_length_inv & -> & _). done.
  - split.
    + intros (t & (c & -> & Hc) & (run & <- & -> & Hrun)%IH).
      exists (c :: run). split; [done|]. split; [done | by constructor].
    + intros ([|c run] & Hlen & -> & Hrun); [done|].
      apply Forall_cons_1 in Hrun as [Hc Hrun].
      exists (run ++ s'). split; [by exists c|]. apply IH. exists run.
      split; [simpl in Hlen; lia | done].
Qed.

(** The bytes of a rune after its first one are not ASCII. *)
Lemma between_ge lo hi b :
  between lo hi b = true -> (128 <= lo)%N -> (128 <= code b)%N.
Proof.
  unfold between. intros Hb Hlo. apply andb_true_iff in Hb as [Hb _].
  apply N.leb_le in Hb. lia.
Qed.

Lemma continuation_ge b : continuation b = true -> (128 <= code b)%N.
Proof. intros H. by apply (between_ge _ _ _ H). Qed.

Lemma second_of_3_ge b0 b1 : second_of_3 b0 b1 = true -> (128 <= code b1)%N.
Proof.
  unfold second_of_3. intros Hs. repeat case_match;
    (by apply continuation_ge) || by apply (between_ge _ _ _ Hs).
Qed.

Lemma second_of_4_ge b0 b1 : second_of_4 b0 b1 = true -> (128 <= code b1)%N.
Proof.
  unfold second_of_4. intros Hs. repeat case_match;
    (by apply continuation_ge) || by apply (between_ge _ _ _ Hs).
Qed.

Lemma rune_width_spec c t :
  1 <= rune_width (c :: t) <= length (c :: t)
  /\ forall j b, 1 <= j < rune_width (c :: t) ->
       (c :: t) !! j = Some b -> (128 <= code b)%N.
Proof.
  unfold rune_width.
  repeat match goal with
         | |- context [if ?b then _ else _] => destruct b eqn:?
         | |- context [match ?l with [] => _ | _ :: _ => _ end] =>
             destruct l as [|? ?]
         end;
    (split; [simpl; lia|]); intros j b Hj Hb;
    destruct j as [|[|[|[|j]]]]; try lia; simpl in Hb; injection Hb as <-;
    repeat match goal with
           | H : _ && _ = true |- _ => apply andb_true_iff in H as [? ?]
           end;
    eauto using continuation_ge, second_of_3_ge, second_of_4_ge.
Qed.

Lemma outside_of_ge cs b : (128 <= code b)%N -> outside cs b.
Proof.
  intros H. unfold outside. apply andb_false_iff. left. apply N.ltb_ge. lia.
Qed.

(** The bytes of a rune that a negated class admits. *)
Lemma rune_outside cs c t :
  outside cs c -> Forall (outside cs) (take (rune_width (c :: t)) (c :: t)).
Proof.
  intros Hc. destruct (rune_width_spec c t) as [Hw Hrest].
  apply Forall_lookup. intros j b Hj.
  apply lookup_take_Some in Hj as [Hj Hlt].
  destruct j as [|j]; [by injection Hj as <-|].
  apply outside_of_ge. apply (Hrest (S j)); [lia | done].
Qed.

Lemma star_notclass cs s s' :
  star (lang n (NotClass cs)) s s' ->
  exists run, s = run ++ s' /\ Forall (outside cs) run.
Proof.
  induction 1 as [s|s t u (c & s0 & -> & Hc & ->) _ _ (run & Hrun & Hall)].
  - by exists [].
  - exists (take (rune_width (c :: s0)) (c :: s0) ++ run). split.
    + rewrite <- app_assoc, <- Hrun. by rewrite take_drop.
    + apply Forall_app. split; [by apply rune_outside | done].
Qed.

(** A run of admitted bytes in front of an ASCII byte is a sequence of
    admitted runes. *)
Lemma notclass_run cs run (sep : ascii) s' :
  (code sep < 128)%N -> Forall (outside cs) run ->
  star (lang n (NotClass cs)) (run ++ sep :: s') (sep :: s').
Proof.
  intros Hsep. remember (length run) as len eqn:Hlen.
  revert run Hlen. induction len as [len IH] using lt_wf_ind.
  intros [|c run] Hlen Hall; [apply star_refl|].
  apply Forall_cons_1 in Hall as [Hc Hall].
  destruct (rune_width_spec c (run ++ sep :: s')) as [[Hw1 Hw2] Hrest].
  set (w := rune_width (c :: run ++ sep :: s')) in *.
  assert (Hw : w <= length (c :: run)).
  { destruct (decide (w <= length (c :: run))) as [|Hgt]; [done|]. exfalso.
    assert (128 <= code sep)%N; [|lia].
    apply (Hrest (length (c :: run))); [simpl in *; lia|].
    change (c :: run ++ sep :: s') with ((c :: run) ++ sep :: s').
    by rewrite list_lookup_middle. }
  apply (star_step _ _ (drop w (c :: run) ++ sep :: s')).
  - exists c, (run ++ sep :: s'). split; [done|]. split; [done|].
    fold w. change (c :: run ++ sep :: s') with ((c :: run) ++ sep :: s').
    by rewrite drop_app_le.
  - rewrite !length_app, length_drop. simpl in *. lia.
  - apply (IH (length (drop w (c :: run)))); [|done|].
    + rewrite length_drop. simpl in *. lia.
    + apply Forall_drop. by constructor.
Qed.
End Runs.

(** ** The expression of pseudo-versions and the grammar of the specification *)

Section PseudoVersion.
Import Lang.

Lemma inside_digit c : inside digit c <-> is_digit c.
Proof.
  unfold inside, is_digit, in_class, digit, between. cbn.
  rewrite orb_false_r, !andb_true_iff, !N.leb_le, N.ltb_lt. lia.
Qed.

Lemma inside_alnum c : inside alnum c <-> is_alnum c.
Proof.
  unfold inside, is_alnum, is_digit, in_class, alnum, between. cbn.
  rewrite orb_false_r, andb_true_iff, !orb_true_iff, !andb_true_iff,
    !N.leb_le, N.ltb_lt. lia.
Qed.

Lemma outside_plus c : outside plus_sign c <-> c <> "+"%char.
Proof.
  unfold outside, in_class, plus_sign, between. cbn.
  rewrite orb_false_r. split.
  - intros H ->. discriminate.
  - intros Hne. apply not_true_is_false.
    rewrite !andb_true_iff, !N.leb_le, N.ltb_lt. intros (_ & H1 & H2).
    apply Hne. rewrite <- (ascii_N_embedding c).
    unfold code in *. by replace (N_of_ascii c) with 43%N by lia.
Qed.

Lemma Forall_outside_plus run :
  Forall (outside plus_sign) run <-> "+"%char ∉ run.
Proof.
  rewrite Forall_forall. split.
  - intros H Hin. specialize (H _ Hin). by apply outside_plus in H.
  - intros H c Hin. apply outside_plus. by intros ->.
Qed.

Lemma Forall_digit run : Forall (inside digit) run <-> Forall is_digit run.
Proof. apply Forall_proper; [intros c; apply inside_digit | done]. Qed.

Lemma Forall_alnum run : Forall (inside alnum) run <-> Forall is_alnum run.
Proof. apply Forall_proper; [intros c; apply inside_alnum | done]. Qed.

Lemma number_run n s s' :
  lang n (Plus (Class digit)) s s' <-> exists run, number run /\ s = run ++ s'.
Proof.
  rewrite plus_class. unfold number. split.
  - intros (run & ? & ? & ?%Forall_digit). by exists run.
  - intros (run & [? ?%Forall_digit] & ?). by exists run.
Qed.


Lemma middle_lang n s s' :
  lang n middle_re s s' <-> exists middle, s = middle ++ s' /\ middle_text middle.
Proof.
  split.
  - intros [H|H].
    + exists (str "0.0-"). split; [exact H | by left].
    + destruct H as (u1 & (minor & Hminor & ->)%number_run & u2 & -> & u3
                     & (patch & Hpatch & ->)%number_run & u4 & -> & u5 & Hopt & ->).
      destruct Hopt as [(w & (label & -> & Hl)%star_notclass & ->)| <-].
      * exists (minor ++ str "." ++ patch ++ str "-" ++ (label ++ str ".") ++ str "0.").
        split; [by rewrite <- !app_assoc|]. right.
        exists minor, patch, (label ++ str ".").
        split; [done|]. split; [done|]. split; [done|].
        right. exists label. split; [done|]. by apply Forall_outside_plus.
      * exists (minor ++ str "." ++ patch ++ str "-" ++ [] ++ str "0.").
        split; [by rewrite <- !app_assoc|]. right.
        exists minor, patch, [].
        split; [done|]. split; [done|]. split; [done|]. by left.
  - intros (middle & -> & [->|(minor & patch & pre & -> & Hminor & Hpatch & Hpre)]).
    + by left.
    + right. rewrite <- !app_assoc.
      eexists. split; [apply number_run; exists minor; split; [done|reflexivity]|].
      eexists. split; [reflexivity|].
      eexists. split; [apply number_run; exists patch; split; [done|reflexivity]|].
      eexists. split; [reflexivity|].
      destruct Hpre as [->|(label & -> & Hl)].
      * eexists. split; [right; reflexivity|]. reflexivity.
      * rewrite <- !app_assoc. eexists. split; [|reflexivity]. left.
        eexists. split; [|reflexivity].
        apply (notclass_run n plus_sign label "."); [done|].
        by apply Forall_outside_plus.
Qed.

Lemma pseudoVersionRE_lang v :
  (exists s', lang (length v) (prog pseudoVersionRE) v s')
  <-> spec_pseudo_version_grammar v.
Proof.
  change (prog pseudoVersionRE) with
    (BeginText :>: Lit (str "v") :>: Plus (Class digit) :>: Lit (str ".") :>:
     middle_re :>: Rep 14 (Class digit) :>: Lit (str "-") :>:
     Plus (Class alnum) :>: Opt (Group 3 "" (Lit (str "+incompatible"))) :>:
     EndText)%re.
  split.
  - intros (s' & t0 & [-> _] & t1 & -> & t2 & (major & Hmajor & ->)%number_run
            & t3 & -> & t4 & (middle & -> & Hmiddle)%middle_lang
            & t5 & (ts & Hlen & -> & Hts%Forall_digit)%iter_class
            & t6 & -> & t7 & (rev & Hne & -> & Hrev%Forall_alnum)%plus_class
            & t8 & Hinc & -> & ->).
    destruct Hinc as [->| <-].
    + exists major, middle, ts, rev, (str "+incompatible").
      do 7 (split; [done|]). by right.
    + exists major, middle, ts, rev, []. do 7 (split; [done|]). by left.
  - intros (major & middle & ts & rev & marker & -> & Hmajor & Hmiddle & Hlen
            & Hts & Hne & Hrev & Hmarker).
    exists []. eexists. split; [by split|].
    eexists. split; [reflexivity|].
    eexists. split; [apply number_run; exists major; split; [done|reflexivity]|].
    eexists. split; [reflexivity|].
    eexists. split; [apply middle_lang; exists middle; split; [reflexivity|done]|].
    eexists. split.
    { apply iter_class. exists ts. split; [done|]. split; [reflexivity|].
      by apply Forall_digit. }
    eexists. split; [reflexivity|].
    eexists. split.
    { apply plus_class. exists rev. split; [done|]. split; [reflexivity|].
      by apply Forall_alnum. }
    destruct Hmarker as [->| ->].
    + exists []. split; [by right | done].
    + exists []. split; [by left | done].
Qed.
End PseudoVersion.

(** ** Claims about pseudo-versions *)

Section Anchored.
Import Lang.

(** An expression that starts with [^] matches nowhere but at offset 0. *)
Lemma search_anchored n src r skip s :
  length s < n -> search n (MustCompile src (BeginText :>: r)) skip s = None.
Proof.
  revert skip. induction s as [|c s IH]; intros skip Hlen.
  - destruct skip; [|done]. cbn [search prog m].
    by rewrite (proj2 (Nat.eqb_neq _ _)) by (simpl; lia).
  - destruct skip as [|skip]; cbn [search prog m].
    + rewrite (proj2 (Nat.eqb_neq _ _)) by lia. apply IH. simpl in Hlen. lia.
    + apply IH. simpl in Hlen. lia.
Qed.

Lemma MatchString_anchored src r text :
  MatchString (MustCompile src (BeginText :>: r)) text = true
  <-> exists s', lang (length text) (BeginText :>: r) text s'.
Proof.
  set (re := MustCompile src (BeginText :>: r)).
  set (k0 := fun (s' : gostring) (caps : captures) => Some (s', caps)).
  assert (Hk0 : uniform k0) by (intros s c c' _; by eexists).
  set (caps0 := replicate (S (NumSubexp re)) (@None (nat * nat))).
  set (whole := Group 0 EmptyString (BeginText :>: r)).
  assert (Hm : is_Some (m (length text) whole text caps0 k0)
               <-> exists s', lang (length text) (BeginText :>: r) text s').
  { rewrite (m_realises (length text) whole text caps0 k0 Hk0). split.
    - intros (t & Ht & _). by exists t.
    - intros (t & Ht). exists t. split; [done | by eexists]. }
  assert (Hs : search (length text) re 0 text
               = m (length text) whole text caps0 k0).
  { destruct text as [|c text]; cbn [search]; fold k0 caps0;
      change (Group 0 EmptyString (prog re)) with whole.
    - by destruct (m _ whole [] caps0 k0).
    - destruct (m _ whole (c :: text) caps0 k0); [done|].
      apply search_anchored. simpl. lia. }
  rewrite <- Hm. unfold MatchString. fold re. rewrite Hs.
  destruct (m (length text) whole text caps0 k0).
  - split; [by eexists | done].
  - split; [done | by intros []%is_Some_None_inv].
Qed.
End Anchored.

Lemma HasPrefix_byte (c x : ascii) (s : gostring) :
  Strings.HasPrefix (x :: s) [c] = bool_decide (x = c).
Proof.
  simpl. destruct (Ascii.eqb_spec c x) as [->|Hne].
  - by rewrite bool_decide_eq_true_2.
  - by rewrite bool_decide_eq_false_2.
Qed.

Lemma Count_hyphens (v : gostring) : Strings.Count v (str "-") = hyphens v.
Proof.
  unfold Strings.Count, hyphens, str. simpl.
  induction v as [|x v IH]; [done|].
  cbn [Strings.count_go]. rewrite HasPrefix_byte, filter_cons.
  case_bool_decide; case_decide; try done; simpl; by rewrite IH.
Qed.

Lemma last_index_go_absent (c : ascii) i (s : gostring) best :
  c ∉ s -> Strings.last_index_go [c] i s best = best.
Proof.
  revert i best. induction s as [|x s IH]; intros i best Hc; [done|].
  cbn [Strings.last_index_go]. rewrite HasPrefix_byte.
  apply not_elem_of_cons in Hc as [Hx Hs].
  rewrite bool_decide_eq_false_2 by done. by apply IH.
Qed.

Lemma last_index_go_last (c : ascii) i (a b : gostring) best :
  c ∉ b ->
  Strings.last_index_go [c] i (a ++ c :: b) best = (i + Z.of_nat (length a))%Z.
Proof.
  intros Hb. revert i best. induction a as [|x a IH]; intros i best.
  - cbn [app Strings.last_index_go]. rewrite HasPrefix_byte.
    rewrite bool_decide_eq_true_2 by done.
    rewrite last_index_go_absent by done. simpl. lia.
  - cbn [app Strings.last_index_go]. rewrite IH. simpl length. lia.
Qed.

(** The text behind the last instance of a byte. *)
Lemma slice_after_last (c : ascii) (a b : gostring) :
  c ∉ b ->
  Strings.slice_from (a ++ c :: b) (Strings.LastIndex (a ++ c :: b) [c] + 1) = b.
Proof.
  intros Hb. unfold Strings.LastIndex, Strings.slice_from.
  rewrite last_index_go_last by done.
  replace (Z.to_nat (0 + Z.of_nat (length a) + 1)) with (length (a ++ [c]))
    by (rewrite length_app; simpl; lia).
  rewrite (cons_middle c a b), app_assoc. apply drop_app_length.
Qed.

Lemma hyphens_pos_split (v : gostring) :
  1 <= hyphens v -> exists a b, v = a ++ "-"%char :: b /\ "-"%char ∉ b.
Proof.
  intros H. apply list_elem_of_split_r. unfold hyphens in H.
  destruct (filter (fun c => c = "-"%char) v) as [|x l] eqn:E; [simpl in H; lia|].
  assert (Hx : x ∈ filter (fun c => c = "-"%char) v) by (rewrite E; left).
  by apply list_elem_of_filter in Hx as [-> ?].
Qed.

Lemma isPseudoVersion_spec (v : gostring) :
  isPseudoVersion v = true <-> 2 <= hyphens v /\ spec_pseudo_version_grammar v.
Proof.
  unfold isPseudoVersion. rewrite andb_true_iff, Nat.leb_le, Count_hyphens.
  assert (MatchString pseudoVersionRE v = true <-> spec_pseudo_version_grammar v)
    as ->; [|done].
  rewrite <- pseudoVersionRE_lang.
  apply (MatchString_anchored (source pseudoVersionRE)).
Qed.

(** C2: a string is classified as a pseudo-version exactly when it has at
    least two hyphens and is in the grammar of pseudo-versions; for a
    version whose text without a trailing "+incompatible" is so classified,
    [commitFromVersion] returns, whatever the directory, what follows the
    last hyphen of that text; for "v0.0.0-20190101000000-abcdef123456" this
    is "abcdef123456". *)
Theorem pseudo_version_commit (version dir : gostring) :
  let v := Strings.TrimSuffix version (str "+incompatible") in
  (isPseudoVersion v = true <-> 2 <= hyphens v /\ spec_pseudo_version_grammar v)
  /\ (isPseudoVersion v = true ->
      exists a b, v = a ++ "-"%char :: b /\ ("-"%char ∉ b)
                  /\ commitFromVersion version dir = b)
  /\ isPseudoVersion (str "v0.0.0-20190101000000-abcdef123456") = true
  /\ commitFromVersion (str "v0.0.0-20190101000000-abcdef123456") dir
     = str "abcdef123456".
Proof.
  intros v. split; [apply isPseudoVersion_spec|]. split.
  - intros Hv. destruct (proj1 (isPseudoVersion_spec v) Hv) as [Hh _].
    destruct (hyphens_pos_split v) as (a & b & Hab & Hb); [lia|].
    exists a, b. split; [done|]. split; [done|].
    unfold commitFromVersion. fold v. rewrite Hv, Hab.
    by apply (slice_after_last "-").
  - split; vm_compute; reflexivity.
Qed.

Lemma pseudo_version_commit_witness :
  spec_pseudo_version_grammar (str "v0.0.0-20190101000000-abcdef123456")
  /\ exists a b,
       str "v0.0.0-20190101000000-abcdef123456" = a ++ "-"%char :: b
       /\ ("-"%char ∉ b)
       /\ commitFromVersion (str "v0.0.0-20190101000000-abcdef123456") (str "sub") = b.
Proof.
  destruct (pseudo_version_commit (str "v0.0.0-20190101000000-abcdef123456") (str "sub"))
    as (H1 & H2 & _).
  split.
  - apply H1. vm_compute. reflexivity.
  - apply H2. vm_compute. reflexivity.
Defined.

(** * Further properties of the package *)

(** ** What a match hands on *)

Section Threads.
Import Lang.

Lemma loop_threads greedy body fuel :
  threads body -> threads (loop greedy body fuel).
Proof.
  intros Hb. induction fuel as [|fuel IH]; intros s caps k res; simpl.
  - intros H. by exists s, caps.
  - set (K := fun (s' : gostring) (caps' : captures) =>
                if length s' <? length s then loop greedy body fuel s' caps' k
                else None).
    assert (HK : body s caps K = Some res ->
                 exists s' caps', k s' caps' = Some res
                   /\ length caps' = length caps /\ s' `suffix_of` s).
    { intros (s1 & c1 & H1 & Hl1 & Hs1)%Hb. unfold K in H1.
      destruct (length s1 <? length s); [|done].
      apply IH in H1 as (s2 & c2 & H2 & Hl2 & Hs2).
      exists s2, c2. split; [done|]. split; [congruence | by etrans]. }
    destruct greedy.
    + destruct (body s caps K) as [x|] eqn:E.
      * intros [= ->]. by apply HK.
      * intros H. by exists s, caps.
    + destruct (k s caps) as [x|] eqn:E.
      * intros [= ->]. by exists s, caps.
      * apply HK.
Qed.

Lemma times_threads count body : threads body -> threads (times count body).
Proof.
  intros Hb. induction count as [|count IH]; intros s caps k res; simpl.
  - intros H. by exists s, caps.
  - intros (s1 & c1 & (s2 & c2 & H2 & Hl2 & Hs2)%IH & Hl1 & Hs1)%Hb.
    exists s2, c2. split; [done|]. split; [congruence | by etrans].
Qed.

Lemma m_threads n r : threads (m n r).
Proof.
  induction r as [|l|cs|cs| | | |r1 IH1 r2 IH2|r1 IH1 r2 IH2
                  |r IH|r IH|r IH|r IH|count r IH|i name r IH];
    intros s caps k res; cbn [m].
  - intros H. by exists s, caps.
  - destruct (Strings.HasPrefix s l); [|done]. intros H.
    exists (drop (length l) s), caps. split; [done|]. split; [done|].
    apply suffix_drop.
  - destruct s as [|c s]; [done|].
    destruct ((code c <? 128)%N && in_class cs c); [|done]. intros H.
    exists s, caps. split; [done|]. split; [done | by apply suffix_cons_r].
  - destruct s as [|c s]; [done|].
    destruct ((code c <? 128)%N && in_class cs c); [done|]. intros H.
    eexists _, caps. split; [exact H|]. split; [done | apply suffix_drop].
  - destruct s as [|c s]; [done|].
    destruct (Ascii.eqb c "010"); [done|]. intros H.
    eexists _, caps. split; [exact H|]. split; [done | apply suffix_drop].
  - destruct (length s =? n); [|done]. intros H. by exists s, caps.
  - destruct s; [|done]. intros H. by exists [], caps.
  - intros (s1 & c1 & (s2 & c2 & H2 & Hl2 & Hs2)%IH2 & Hl1 & Hs1)%IH1.
    exists s2, c2. split; [done|]. split; [congruence | by etrans].
  - unfold or_else. destruct (m n r1 s caps k) as [x|] eqn:E.
    + intros [= <-]. by apply IH1.
    + apply IH2.
  - by apply loop_threads.
  - intros (s1 & c1 & H1 & Hl1 & Hs1)%IH.
    apply (loop_threads true (m n r) _ IH) in H1 as (s2 & c2 & H2 & Hl2 & Hs2).
    exists s2, c2. split; [done|]. split; [congruence | by etrans].
  - intros (s1 & c1 & H1 & Hl1 & Hs1)%IH.
    apply (loop_threads false (m n r) _ IH) in H1 as (s2 & c2 & H2 & Hl2 & Hs2).
    exists s2, c2. split; [done|]. split; [congruence | by etrans].
  - unfold or_else. destruct (m n r s caps k) as [x|] eqn:E.
    + intros [= <-]. by apply IH.
    + intros H. by exists s, caps.
  - by apply times_threads.
  - intros (s1 & c1 & H1 & Hl1 & Hs1)%IH.
    exists s1, (<[i := Some (n - length s, n - length s1)]> c1).
    split; [exact H1|]. split; [|done]. etrans; [apply length_insert | done].
Qed.

(** The groups of a match found from [s] on: one entry for the whole match
    and one for each group; the whole match lies inside [s]. *)
Lemma search_groups n re skip s s' caps :
  length s <= n ->
  search n re skip s = Some (s', caps) ->
  length caps = S (NumSubexp re)
  /\ exists t, t `suffix_of` s /\ s' `suffix_of` t
       /\ head caps = Some (Some (n - length t, n - length s')).
Proof.
  revert skip. induction s as [|c s IH]; intros skip Hn.
  - destruct skip as [|skip]; [|done]. cbn [search].
    destruct (m n _ [] _ _) as [x|] eqn:E; [|done]. intros [= ->].
    cbn [m] in E. apply m_threads in E as (s1 & c1 & [= <- <-] & Hl & Hs).
    rewrite length_replicate in Hl.
    split; [etrans; [apply length_insert | done]|].
    exists []. split; [done|]. split; [done|].
    destruct c1; [done | reflexivity].
  - assert (Hrec : forall skip', search n re skip' s = Some (s', caps) ->
              length caps = S (NumSubexp re)
              /\ exists t, t `suffix_of` c :: s /\ s' `suffix_of` t
                   /\ head caps = Some (Some (n - length t, n - length s'))).
    { intros skip' H. apply IH in H as (Hl & t & Ht & Hs & Hh); [|simpl in Hn; lia].
      split; [done|]. exists t. split; [by apply suffix_cons_r | done]. }
    destruct skip as [|skip]; cbn [search]; [|apply Hrec].
    destruct (m n _ (c :: s) _ _) as [x|] eqn:E; [|apply Hrec].
    intros [= ->].
    cbn [m] in E. apply m_threads in E as (s1 & c1 & [= <- <-] & Hl & Hs).
    rewrite length_replicate in Hl.
    split; [etrans; [apply length_insert | done]|].
    exists (c :: s). split; [done|]. split; [done|].
    destruct c1; [done | reflexivity].
Qed.
End Threads.

(** ** The submatches that [matchStatic] reads *)

Lemma search_submatches re (id s' : gostring) caps :
  search (length id) re 0 id = Some (s', caps) ->
  exists before whole,
    id = before ++ whole ++ s'
    /\ head caps = Some (Some (length before, length before + length whole))
    /\ submatch id <$> head caps = Some whole
    /\ length caps = S (NumSubexp re).
Proof.
  intros H. apply search_groups in H as (Hl & t & [before Ht] & [whole Hs] & Hh);
    [|done].
  exists before, whole. subst t. split; [done|].
  assert (Ha : length id - length (whole ++ s') = length before).
  { rewrite Ht, !length_app. lia. }
  assert (Hb : length id - length s' = length before + length whole).
  { rewrite Ht, !length_app. lia. }
  rewrite Ha, Hb in Hh. split; [done|]. split; [|done].
  rewrite Hh. simpl. f_equal.
  replace (length before + length whole - length before) with (length whole) by lia.
  rewrite Ht at 1. rewrite drop_app_length. apply take_app_length.
Qed.

(** X1: when a pattern matches, [FindStringSubmatch] returns one submatch
    for each entry of [SubexpNames], so every index that the loop over the
    names reads is in range; submatch 0 is a part of the identifier, at the
    offset where the leftmost match starts, so the slice
    [id[len(matches[0]):]] is in range too. *)
Theorem submatches_in_range (re : Regexp) (id : gostring) (matches : list gostring) :
  FindStringSubmatch re id = Some matches ->
  length matches = length (SubexpNames re)
  /\ (forall i, i < length (SubexpNames re) -> is_Some (matches !! i))
  /\ exists before whole after,
       id = before ++ whole ++ after
       /\ matches !! 0 = Some whole
       /\ match_start re id = Some (length before)
       /\ length whole <= length id.
Proof.
  unfold FindStringSubmatch, match_start.
  destruct (search (length id) re 0 id) as [[s' caps]|] eqn:E; [|done].
  intros [= <-].
  destruct (search_submatches re id s' caps E) as (before & whole & Hid & Hh & Hw & Hl).
  assert (Hlen : length (submatch id <$> caps) = length (SubexpNames re)).
  { rewrite length_fmap, Hl. unfold SubexpNames, NumSubexp. simpl.
    by rewrite length_fmap. }
  split; [done|]. split.
  - intros i Hi. apply lookup_lt_is_Some. by rewrite Hlen.
  - exists before, whole, s'. split; [done|].
    destruct caps as [|c0 caps]; [done|]. simpl in Hh, Hw.
    injection Hh as ->. split; [exact Hw|]. split; [done|].
    rewrite Hid, !length_app. lia.
Qed.

Lemma submatches_in_range_witness :
  let id := str "example.com/a~b/c.d/e.git" in
  exists matches,
    FindStringSubmatch general_re id = Some matches
    /\ length matches = 6
    /\ exists before whole after,
         id = before ++ whole ++ after
         /\ matches !! 0 = Some whole
         /\ match_start general_re id = Some (length before).
Proof.
  intros id.
  exists [str "c.d/e.git"; str "c.d/e"; str "c."; []; str "/e"; str "git"].
  assert (H : FindStringSubmatch general_re id
              = Some [str "c.d/e.git"; str "c.d/e"; str "c."; []; str "/e"; str "git"])
    by (vm_compute; reflexivity).
  split; [exact H|].
  destruct (submatches_in_range general_re id _ H)
    as (Hl & _ & before & whole & after & H1 & H2 & H3 & _).
  split; [exact Hl|]. by exists before, whole, after.
Defined.

Lemma search_anchored_start src r (id s' : gostring) caps :
  search (length id) (MustCompile src (BeginText :>: r)) 0 id = Some (s', caps) ->
  exists whole, id = whole ++ s' /\ submatch id <$> head caps = Some whole.
Proof.
  intros H. destruct (search_submatches _ id s' caps H)
    as (before & whole & Hid & Hh & Hw & _).
  assert (before = []) as ->; [|by exists whole].
  destruct id as [|c id]; cbn [search] in H.
  - by destruct before.
  - destruct (m _ _ (c :: id) _ _) as [x|] eqn:E.
    + injection H as ->. cbn [m prog] in E.
      destruct (length (c :: id) =? length (c :: id)); [|done].
      apply m_threads in E as (s1 & c1 & [= <- <-] & Hl & Hs).
      rewrite length_replicate in Hl. destruct c1 as [|x c1]; [done|].
      simpl in Hh. injection Hh as Hb _.
      destruct before; [done|]. simpl in Hb. lia.
    + rewrite search_anchored in H by (simpl; lia). done.
Qed.

Lemma match_result_anchored src r (p : pattern) (id : gostring) matches :
  re p = MustCompile src (BeginText :>: r) ->
  FindStringSubmatch (re p) id = Some matches ->
  exists whole rest,
    id = whole ++ rest
    /\ matches !! 0 = Some whole
    /\ match_result p id matches
       = (repo_of (SubexpNames (re p)) 0 matches,
          Strings.TrimPrefix rest (str "/"), pat_templates p).
Proof.
  intros Hre. rewrite Hre. unfold FindStringSubmatch.
  destruct (search _ _ 0 id) as [[s' caps]|] eqn:E; [|done]. intros [= <-].
  apply search_anchored_start in E as (whole & Hid & Hw).
  exists whole, s'. split; [done|].
  assert (H0 : (submatch id <$> caps) !! 0 = Some whole).
  { destruct caps; [done|]. exact Hw. }
  assert (Hd : drop (length whole) id = s').
  { rewrite Hid. apply drop_app_length. }
  split; [done|]. unfold match_result. rewrite H0, Hre. simpl default.
  by rewrite Hd.
Qed.

(** X2: for each of the first three patterns of the table, which start
    with [^], the matched text is a prefix of the identifier and the
    directory that [matchStatic] computes is what follows that prefix,
    without one leading slash. *)
Theorem match_result_of_anchored_pattern
  (p : pattern) (id : gostring) (matches : list gostring) :
  p ∈ take 3 patterns ->
  FindStringSubmatch (re p) id = Some matches ->
  exists whole rest,
    id = whole ++ rest
    /\ matches !! 0 = Some whole
    /\ match_result p id matches
       = (repo_of (SubexpNames (re p)) 0 matches,
          Strings.TrimPrefix rest (str "/"), pat_templates p).
Proof.
  intros Hp. cbn [take patterns] in Hp.
  repeat (apply elem_of_cons in Hp as [->|Hp];
          [by eapply match_result_anchored|]).
  by apply elem_of_nil in Hp.
Qed.

Lemma match_result_of_anchored_pattern_witness :
  let id := str "bitbucket.org/a/b/c/d" in
  exists p matches whole rest,
    patterns !! 1 = Some p
    /\ FindStringSubmatch (re p) id = Some matches
    /\ id = whole ++ rest
    /\ matches !! 0 = Some whole
    /\ match_result p id matches
       = (repo_of (SubexpNames (re p)) 0 matches,
          Strings.TrimPrefix rest (str "/"), pat_templates p).
Proof.
  intros id.
  destruct (match_result_of_anchored_pattern
              (mkPattern bitbucket_re {|
                 directory := str "{repo}/src/{commit}/{dir}";
                 file := str "{repo}/src/{commit}/{file}";
                 line := str "{repo}/src/{commit}/{file}#lines-{line}" |})
              id [str "bitbucket.org/a/b"; str "bitbucket.org/a/b"])
    as (whole & rest & H1 & H2 & H3).
  - right. left.
  - vm_compute. reflexivity.
  - eexists _, _, whole, rest. split; [reflexivity|].
    split; [vm_compute; reflexivity|]. done.
Defined.

(** ** The two-segment patterns *)

Section TwoSegments.
Import Lang.

Lemma code_inj c d : code c = code d -> c = d.
Proof.
  unfold code. intros H.
  by rewrite <- (ascii_N_embedding c), <- (ascii_N_embedding d), H.
Qed.

Lemma inside_name_chars c : inside name_chars c <-> is_name_char c.
Proof.
  assert (H1 : c = "_"%char <-> code c = 95%N)
    by (split; [by intros -> | apply (code_inj c "_")]).
  assert (H2 : c = "."%char <-> code c = 46%N)
    by (split; [by intros -> | apply (code_inj c ".")]).
  assert (H3 : c = "-"%char <-> code c = 45%N)
    by (split; [by intros -> | apply (code_inj c "-")]).
  unfold is_name_char, is_alnum, is_digit. rewrite H1, H2, H3.
  unfold inside, in_class, name_chars, between. cbn.
  rewrite orb_false_r, andb_true_iff, !orb_true_iff, !andb_true_iff,
    !N.leb_le, N.ltb_lt. lia.
Qed.

Lemma name_run run : name run <-> run <> [] /\ Forall (inside name_chars) run.
Proof.
  unfold name. split; intros [? H]; (split; [done|]);
    eapply Forall_impl; try exact H; intros c; apply inside_name_chars.
Qed.

Lemma ends_name_head rest :
  ends_name rest <-> forall c t, rest = c :: t -> ~ inside name_chars c.
Proof.
  unfold ends_name. split; intros H c t Hr Hc; apply (H c t Hr);
    by apply inside_name_chars.
Qed.

(** A greedy run of a class goes to the end of the run when the rest of
    the match succeeds there. *)
Lemma loop_greedy_run n cs (run rest : gostring) caps (k : kont) fuel :
  Forall (inside cs) run ->
  (forall c t, rest = c :: t -> ~ inside cs c) ->
  is_Some (k rest caps) ->
  length (run ++ rest) < fuel ->
  loop true (m n (Class cs)) fuel (run ++ rest) caps k = k rest caps.
Proof.
  intros Hrun Hrest Hk. revert fuel.
  induction Hrun as [|c run Hc _ IH]; intros fuel Hfuel;
    (destruct fuel as [|fuel]; [simpl in Hfuel; lia|]).
  - cbn [loop app m]. destruct rest as [|c t]; [done|].
    destruct ((code c <? 128)%N && in_class cs c) eqn:E; [|done].
    by destruct (Hrest c t).
  - cbn [loop app m]. unfold inside in Hc. rewrite Hc.
    rewrite (proj2 (Nat.ltb_lt _ _)) by (simpl; lia).
    rewrite IH by (simpl in Hfuel; lia).
    by destruct Hk as [x ->].
Qed.

Lemma plus_greedy_run n cs (run rest : gostring) caps (k : kont) :
  run <> [] -> Forall (inside cs) run ->
  (forall c t, rest = c :: t -> ~ inside cs c) ->
  is_Some (k rest caps) ->
  m n (Plus (Class cs)) (run ++ rest) caps k = k rest caps.
Proof.
  intros Hne Hrun Hrest Hk. destruct Hrun as [|c run Hc Hrun]; [done|].
  cbn [m app]. unfold inside in Hc. rewrite Hc.
  apply (loop_greedy_run n cs run rest caps k); [done | done | done | lia].
Qed.

Lemma search_first n re (s : gostring) x :
  m n (Group 0 EmptyString (prog re)) s (replicate (S (NumSubexp re)) None)
    (fun s' caps => Some (s', caps)) = Some x ->
  search n re 0 s = Some x.
Proof. intros H. destruct s; cbn [search]; by rewrite H. Qed.

Lemma m_Seq n r1 r2 s caps k :
  m n (r1 :>: r2) s caps k = m n r1 s caps (fun s' caps' => m n r2 s' caps' k).
Proof. reflexivity. Qed.

Lemma m_Group n i nm r s caps k :
  m n (Group i nm r) s caps k
  = m n r s caps (fun s' caps' =>
      k s' (<[i := Some (n - length s, n - length s')]> caps')).
Proof. reflexivity. Qed.

Lemma m_BeginText (s : gostring) caps k : m (length s) BeginText s caps k = k s caps.
Proof. cbn [m]. by rewrite Nat.eqb_refl. Qed.

Lemma m_Lit_app n (l t : gostring) caps k : m n (Lit l) (l ++ t) caps k = k t caps.
Proof. cbn [m]. by rewrite HasPrefix_app, drop_app_length. Qed.

Lemma two_segment_submatches src (host owner nm rest : gostring) :
  name owner -> name nm -> ends_name rest ->
  FindStringSubmatch
    (MustCompile src
       (BeginText :>:
        Group 1 "repo"
          (Lit host :>: Plus (Class name_chars) :>:
           Lit (str "/") :>: Plus (Class name_chars))))
    ((host ++ owner ++ str "/" ++ nm) ++ rest)
  = Some [host ++ owner ++ str "/" ++ nm; host ++ owner ++ str "/" ++ nm].
Proof.
  intros [Ho1 Ho2]%name_run [Hn1 Hn2]%name_run Hends.
  pose proof (proj1 (ends_name_head rest) Hends) as Hrest.
  set (whole := host ++ owner ++ str "/" ++ nm).
  assert (Hlen : length (whole ++ rest) - length rest = length whole)
    by (rewrite length_app; lia).
  assert (Hslash : forall c t, str "/" ++ nm ++ rest = c :: t -> ~ inside name_chars c).
  { intros c t [= <- _]. by vm_compute. }
  unfold FindStringSubmatch.
  rewrite (search_first _ _ _
             (rest, [Some (0, length whole); Some (0, length whole)])).
  - cbn [fmap list_fmap submatch]. by rewrite Nat.sub_0_r, drop_0, take_app_length.
  - cbn [prog NumSubexp groups length app replicate].
    rewrite m_Group, m_Seq, m_BeginText, m_Group, m_Seq.
    set (n := length (whole ++ rest)) in *.
    replace (whole ++ rest) with (host ++ owner ++ str "/" ++ nm ++ rest)
      by (unfold whole; by rewrite <- !app_assoc).
    rewrite m_Lit_app, m_Seq.
    assert (Hinner : forall k : kont, is_Some (k rest [None; None]) ->
              m n (Lit (str "/") :>: Plus (Class name_chars))
                (str "/" ++ nm ++ rest) [None; None] k
              = k rest [None; None]).
    { intros k Hk. rewrite m_Seq, m_Lit_app. by apply plus_greedy_run. }
    rewrite plus_greedy_run; [|done|done|done|].
    + rewrite Hinner by by eexists.
      by rewrite Nat.sub_diag, Hlen.
    + rewrite Hinner; by eexists.
Qed.

(** A pattern that starts with [^] and a literal text does not match an
    identifier that does not start with that text. *)
Lemma anchored_literal_mismatch src i nm (host : gostring) r (id : gostring) :
  Strings.HasPrefix id host = false ->
  FindStringSubmatch (MustCompile src (BeginText :>: Group i nm (Lit host :>: r))) id
  = None.
Proof.
  intros H. unfold FindStringSubmatch.
  destruct id as [|c id]; cbn [search m prog]; rewrite Nat.eqb_refl, H.
  - done.
  - by rewrite search_anchored by (simpl; lia).
Qed.
End TwoSegments.

Lemma match_result_two_segment src (host whole rest : gostring) t :
  match_result
    (mkPattern
       (MustCompile src
          (BeginText :>:
           Group 1 "repo"
             (Lit host :>: Plus (Class name_chars) :>:
              Lit (str "/") :>: Plus (Class name_chars)))) t)
    (whole ++ rest) [whole; whole]
  = (whole, Strings.TrimPrefix rest (str "/"), t).
Proof.
  unfold match_result. cbn [re pat_templates].
  change (SubexpNames _) with [EmptyString; "repo"%string].
  cbn [repo_of String.eqb Ascii.eqb Bool.eqb lookup list_lookup default].
  by rewrite drop_app_length.
Qed.

Lemma two_segment_results (owner nm rest : gostring) :
  name owner -> name nm -> ends_name rest ->
  matchStatic ((str "github.com/" ++ owner ++ str "/" ++ nm) ++ rest)
  = Ok (str "github.com/" ++ owner ++ str "/" ++ nm,
        Strings.TrimPrefix rest (str "/"), githubURLTemplates)
  /\ matchStatic ((str "bitbucket.org/" ++ owner ++ str "/" ++ nm) ++ rest)
     = Ok (str "bitbucket.org/" ++ owner ++ str "/" ++ nm,
           Strings.TrimPrefix rest (str "/"),
           {| directory := str "{repo}/src/{commit}/{dir}";
              file := str "{repo}/src/{commit}/{file}";
              line := str "{repo}/src/{commit}/{file}#lines-{line}" |}).
Proof.
  intros Ho Hn Hr. unfold matchStatic, patterns. split.
  - cbn [matchStatic_in re]. unfold github_re.
    rewrite (two_segment_submatches _ (str "github.com/")) by done.
    by rewrite match_result_two_segment.
  - cbn [matchStatic_in re]. unfold github_re at 1.
    rewrite anchored_literal_mismatch by reflexivity.
    unfold bitbucket_re.
    rewrite (two_segment_submatches _ (str "bitbucket.org/")) by done.
    by rewrite match_result_two_segment.
Qed.

(** X3: a module path or repo URL that is "github.com/", an owner, a slash
    and a repository name (both non-empty and of the bytes
    [a-z0-9A-Z_.-]), followed by nothing or by a byte that is not of a name,
    gets from [matchStatic] the repo "github.com/owner/name", as directory
    what follows the name without one leading slash, and the github
    templates; the same holds of "bitbucket.org/" with the templates of the
    second pattern. *)
Theorem matchStatic_two_segments (owner nm rest : gostring) :
  name owner -> name nm -> ends_name rest ->
  matchStatic ((str "github.com/" ++ owner ++ str "/" ++ nm) ++ rest)
  = Ok (str "github.com/" ++ owner ++ str "/" ++ nm,
        Strings.TrimPrefix rest (str "/"), githubURLTemplates)
  /\ matchStatic ((str "bitbucket.org/" ++ owner ++ str "/" ++ nm) ++ rest)
     = Ok (str "bitbucket.org/" ++ owner ++ str "/" ++ nm,
           Strings.TrimPrefix rest (str "/"),
           {| directory := str "{repo}/src/{commit}/{dir}";
              file := str "{repo}/src/{commit}/{file}";
              line := str "{repo}/src/{commit}/{file}#lines-{line}" |}).
Proof. apply two_segment_results. Qed.

Lemma matchStatic_two_segments_witness :
  matchStatic (str "github.com/golang/go/src/fmt")
  = Ok (str "github.com/golang/go", str "src/fmt", githubURLTemplates)
  /\ matchStatic (str "bitbucket.org/golang/go/src/fmt")
     = Ok (str "bitbucket.org/golang/go", str "src/fmt",
           {| directory := str "{repo}/src/{commit}/{dir}";
              file := str "{repo}/src/{commit}/{file}";
              line := str "{repo}/src/{commit}/{file}#lines-{line}" |}).
Proof.
  apply (matchStatic_two_segments (str "golang") (str "go") (str "/src/fmt")).
  - apply name_run. split; [done|]. repeat constructor.
  - apply name_run. split; [done|]. repeat constructor.
  - apply ends_name_head. intros c t [= <- _]. by vm_compute.
Defined.

(** ** The result of [matchStatic] *)

Lemma matchStatic_in_Err table (id : gostring) e :
  matchStatic_in table id = Err e -> e = NotFound.
Proof.
  induction table as [|q table IH]; simpl; [by intros [= <-]|].
  destruct (FindStringSubmatch (re q) id); [done | exact IH].
Qed.

(** X4: over any table, the only error of [matchStatic] is [NotFound], it
    is returned exactly when no pattern of the table matches the argument
    anywhere, and every other result is the result of a pattern that
    matches and before which no pattern of the table matches. *)
Theorem matchStatic_in_result (table : list pattern) (id : gostring) :
  (matchStatic_in table id = Err NotFound
   <-> Forall (fun q => FindStringSubmatch (re q) id = None) table)
  /\ (forall e, matchStatic_in table id = Err e -> e = NotFound)
  /\ (forall r, matchStatic_in table id = Ok r ->
        exists pre p post matches,
          table = pre ++ p :: post
          /\ Forall (fun q => FindStringSubmatch (re q) id = None) pre
          /\ FindStringSubmatch (re p) id = Some matches
          /\ r = match_result p id matches).
Proof.
  split; [apply matchStatic_in_NotFound|]. split.
  - intros e. apply matchStatic_in_Err.
  - induction table as [|q table IH]; intros r; simpl; [done|].
    destruct (FindStringSubmatch (re q) id) as [matches|] eqn:E.
    + intros [= <-]. exists [], q, table, matches. by repeat split.
    + intros (pre & p & post & matches & -> & Hpre & Hp & ->)%IH.
      exists (q :: pre), p, post, matches. repeat split; try done.
      by constructor.
Qed.

(** ** The URLs of the known hosts *)

Ltac expand_template range_enumerates :=
  rewrite (expand_literal _ range_enumerates); [|decide_closed|decide_closed].

(** X5: for each of the three sets of templates of the table, the URL
    builders give, whatever the order in which the map of substitutions is
    iterated, the repo URL, the host's segment, the commit and the joined
    path, and a line URL is the file URL followed by the host's fragment
    for a line. *)
Theorem known_host_urls
  (range : gmap gostring gostring -> list (gostring * gostring))
  (i : Info) (dir pathname : gostring) (line_ : Z) :
  (forall m, range m ≡ₚ map_to_list m) ->
  (templates i = githubURLTemplates ->
     DirectoryURL range i dir
     = Strings.TrimSuffix
         (RepoURL i ++ str "/tree/" ++ commit i ++ str "/"
          ++ Path.Join [moduleDir i; dir]) (str "/")
     /\ FileURL range i pathname
        = RepoURL i ++ str "/blob/" ++ commit i ++ str "/"
          ++ Path.Join [moduleDir i; pathname]
     /\ LineURL range i pathname line_
        = FileURL range i pathname ++ str "#L" ++ Strconv.Itoa line_)
  /\ (templates i = {| directory := str "{repo}/src/{commit}/{dir}";
                       file := str "{repo}/src/{commit}/{file}";
                       line := str "{repo}/src/{commit}/{file}#lines-{line}" |} ->
      DirectoryURL range i dir
      = Strings.TrimSuffix
          (RepoURL i ++ str "/src/" ++ commit i ++ str "/"
           ++ Path.Join [moduleDir i; dir]) (str "/")
      /\ FileURL range i pathname
         = RepoURL i ++ str "/src/" ++ commit i ++ str "/"
           ++ Path.Join [moduleDir i; pathname]
      /\ LineURL range i pathname line_
         = FileURL range i pathname ++ str "#lines-" ++ Strconv.Itoa line_)
  /\ (templates i = {| directory := str "{repo}/+/{commit}/{dir}";
                       file := str "{repo}/+/{commit}/{file}";
                       line := str "{repo}/+/{commit}/{file}#{line}" |} ->
      DirectoryURL range i dir
      = Strings.TrimSuffix
          (RepoURL i ++ str "/+/" ++ commit i ++ str "/"
           ++ Path.Join [moduleDir i; dir]) (str "/")
      /\ FileURL range i pathname
         = RepoURL i ++ str "/+/" ++ commit i ++ str "/"
           ++ Path.Join [moduleDir i; pathname]
      /\ LineURL range i pathname line_
         = FileURL range i pathname ++ str "#" ++ Strconv.Itoa line_).
Proof.
  intros Hr. split; [|split].
  - intros Ht.
    rewrite (github_LineURL range Hr i Ht), !(github_FileURL range Hr i Ht),
      (github_DirectoryURL range Hr i Ht).
    by rewrite <- !app_assoc.
  - intros Ht. unfold DirectoryURL, FileURL, LineURL. rewrite Ht.
    cbn [directory file line]. repeat (expand_template Hr).
    split; [|split].
    + f_equal.
      transitivity (RepoURL i ++ str "/src/" ++ commit i ++ str "/"
                    ++ Path.Join [moduleDir i; dir] ++ []);
        [reflexivity | by rewrite app_nil_r].
    + transitivity (RepoURL i ++ str "/src/" ++ commit i ++ str "/"
                    ++ Path.Join [moduleDir i; pathname] ++ []);
        [reflexivity | by rewrite app_nil_r].
    + transitivity (RepoURL i ++ str "/src/" ++ commit i ++ str "/"
                    ++ Path.Join [moduleDir i; pathname]
                    ++ str "#lines-" ++ Strconv.Itoa line_ ++ []);
        [reflexivity|].
      change (expand_in_order (str "{repo}/src/{commit}/{file}") _)
        with (RepoURL i ++ str "/src/" ++ commit i ++ str "/"
              ++ Path.Join [moduleDir i; pathname] ++ []).
      by rewrite !app_nil_r, <- !app_assoc.
  - intros Ht. unfold DirectoryURL, FileURL, LineURL. rewrite Ht.
    cbn [directory file line]. repeat (expand_template Hr).
    split; [|split].
    + f_equal.
      transitivity (RepoURL i ++ str "/+/" ++ commit i ++ str "/"
                    ++ Path.Join [moduleDir i; dir] ++ []);
        [reflexivity | by rewrite app_nil_r].
    + transitivity (RepoURL i ++ str "/+/" ++ commit i ++ str "/"
                    ++ Path.Join [moduleDir i; pathname] ++ []);
        [reflexivity | by rewrite app_nil_r].
    + transitivity (RepoURL i ++ str "/+/" ++ commit i ++ str "/"
                    ++ Path.Join [moduleDir i; pathname]
                    ++ str "#" ++ Strconv.Itoa line_ ++ []);
        [reflexivity|].
      change (expand_in_order (str "{repo}/+/{commit}/{file}") _)
        with (RepoURL i ++ str "/+/" ++ commit i ++ str "/"
              ++ Path.Join [moduleDir i; pathname] ++ []).
      by rewrite !app_nil_r, <- !app_assoc.
Qed.

Lemma known_host_urls_witness :
  let i := mkInfo (str "https://go.googlesource.com/tools") (str "gopls")
             (str "gopls/v0.4.0")
             {| directory := str "{repo}/+/{commit}/{dir}";
                file := str "{repo}/+/{commit}/{file}";
                line := str "{repo}/+/{commit}/{file}#{line}" |} in
  DirectoryURL map_to_list i [] = str "https://go.googlesource.com/tools/+/gopls/v0.4.0/gopls"
  /\ FileURL map_to_list i (str "main.go")
     = str "https://go.googlesource.com/tools/+/gopls/v0.4.0/gopls/main.go"
  /\ LineURL map_to_list i (str "main.go") 7
     = FileURL map_to_list i (str "main.go") ++ str "#7".
Proof.
  intros i.
  destruct (known_host_urls map_to_list i [] (str "main.go") 7) as (_ & _ & H);
    [intros m; reflexivity|].
  destruct (H eq_refl) as (H1 & H2 & H3).
  split; [rewrite H1; vm_compute; reflexivity|].
  split; [rewrite H2; vm_compute; reflexivity|]. exact H3.
Defined.

(** ** More on [expand] *)

Lemma Replace_plain oldnew (s : gostring) :
  (forall t, t `suffix_of` s -> Strings.lookup oldnew t = None) ->
  Strings.Replace oldnew s = s.
Proof.
  induction s as [|c s IH]; intros H; [done|].
  rewrite Replace_nomatch by (by apply H). f_equal. apply IH.
  intros t Ht. apply H. by apply suffix_cons_r.
Qed.

Lemma token_head k (t : gostring) :
  token k `prefix_of` t -> exists t', t = "{"%char :: t'.
Proof. intros [t' ->]. by eexists. Qed.

(** X6: [expand] returns unchanged a template in which no placeholder of
    the map starts anywhere; so it does with a template without an opening
    brace, and with every template when the map is empty. *)
Theorem expand_plain_text
  (range : gmap gostring gostring -> list (gostring * gostring))
  (s : gostring) (m : gmap gostring gostring) :
  (forall m, range m ≡ₚ map_to_list m) ->
  ((forall t k, t `suffix_of` s -> is_Some (m !! k) -> ~ token k `prefix_of` t) ->
   expand range s m = s)
  /\ ("{"%char ∉ s -> expand range s m = s)
  /\ expand range s ∅ = s.
Proof.
  intros Hr.
  assert (H : forall m',
    (forall t k, t `suffix_of` s -> is_Some (m' !! k) -> ~ token k `prefix_of` t) ->
    expand range s m' = s).
  { intros m' Hno. unfold expand, expand_in_order. apply Replace_plain.
    intros t Ht. apply lookup_None_iff.
    intros p (k & v & -> & Hin)%elem_of_oldNew. cbn [fst].
    rewrite Hr in Hin. apply elem_of_map_to_list in Hin.
    destruct (Strings.HasPrefix t (token k)) eqn:E; [|done].
    apply HasPrefix_prefix in E. by destruct (Hno t k Ht (mk_is_Some _ _ Hin)). }
  split; [apply H|]. split.
  - intros Hb. apply H. intros t k [u ->] _ [t' ->]%token_head.
    apply Hb. apply elem_of_app. right. left.
  - apply H. intros t k _ [v Hv]. by rewrite lookup_empty in Hv.
Qed.

Lemma expand_plain_text_witness :
  expand map_to_list (str "https://example.com/src")
    (list_to_map [(str "repo", str "r"); (str "commit", str "c")])
  = str "https://example.com/src".
Proof.
  destruct (expand_plain_text map_to_list (str "https://example.com/src")
              (list_to_map [(str "repo", str "r"); (str "commit", str "c")]))
    as (_ & H & _).
  - intros m. reflexivity.
  - apply H. decide_closed.
Defined.

(** X7: when no key of the map contains a brace, [expand] replaces a
    placeholder of the map wherever it stands: the text before it and the
    text behind it are expanded on their own. *)
Theorem expand_at_placeholder
  (range : gmap gostring gostring -> list (gostring * gostring))
  (m : gmap gostring gostring) (pre post k v : gostring) :
  (forall m, range m ≡ₚ map_to_list m) ->
  (forall k', is_Some (m !! k') -> brace_free k' /\ no_open_brace k') ->
  m !! k = Some v ->
  expand range (pre ++ token k ++ post) m
  = expand range pre m ++ v ++ expand range post m.
Proof.
  intros Hr Hkeys Hk.
  assert (Hpf : tokens_prefix_free m).
  { apply brace_free_prefix_free. intros k' Hk'. by apply Hkeys. }
  unfold expand.
  rewrite !(expand_in_order_Permutation m (range m) (map_to_list m) _ Hpf (Hr m))
    by done.
  apply expand_in_order_app_token.
  - apply NoDup_fst_map_to_list.
  - apply Forall_forall. intros k' [[k'' v'] [-> Hin]]%list_elem_of_fmap.
    apply elem_of_map_to_list in Hin. by apply Hkeys.
  - apply Forall_forall. intros k' [[k'' v'] [-> Hin]]%list_elem_of_fmap.
    apply elem_of_map_to_list in Hin. by apply Hkeys.
  - by apply elem_of_map_to_list.
Qed.

Lemma expand_at_placeholder_witness :
  let m : gmap gostring gostring := {[ str "repo" := str "https://r" ]} in
  expand map_to_list (str "{x" ++ token (str "repo") ++ str "/{repo") m
  = expand map_to_list (str "{x") m ++ str "https://r"
    ++ expand map_to_list (str "/{repo") m.
Proof.
  intros m.
  apply (expand_at_placeholder map_to_list m (str "{x") (str "/{repo") (str "repo")).
  - intros m'. reflexivity.
  - intros k' [v' Hv']. apply lookup_singleton_Some in Hv' as [<- _].
    split; decide_closed.
  - apply lookup_singleton_eq.
Defined.

(** ** More on pseudo-versions *)

Lemma hyphens_app (a b : gostring) : hyphens (a ++ b) = hyphens a + hyphens b.
Proof. unfold hyphens. by rewrite filter_app, length_app. Qed.

Lemma MatchString_pseudoVersionRE (v : gostring) :
  MatchString pseudoVersionRE v = true <-> spec_pseudo_version_grammar v.
Proof.
  rewrite <- pseudoVersionRE_lang.
  apply (MatchString_anchored (source pseudoVersionRE)).
Qed.

Lemma middle_hyphen (middle : gostring) : middle_text middle -> 1 <= hyphens middle.
Proof.
  intros [->|(minor & patch & pre & -> & _)]; [by vm_compute|].
  rewrite !hyphens_app. change (hyphens (str "-")) with 1. lia.
Qed.

Lemma grammar_hyphens (v : gostring) :
  spec_pseudo_version_grammar v -> 2 <= hyphens v.
Proof.
  intros (major & middle & ts & rev & marker & -> & _ & Hm%middle_hyphen & _).
  rewrite !hyphens_app. change (hyphens (str "-")) with 1. lia.
Qed.

(** X8: the count of hyphens never changes the answer of
    [isPseudoVersion]: a string that matches [pseudoVersionRE] has at least
    two hyphens, so [isPseudoVersion] is the match of the expression. *)
Theorem isPseudoVersion_is_match (v : gostring) :
  isPseudoVersion v = MatchString pseudoVersionRE v
  /\ (MatchString pseudoVersionRE v = true -> 2 <= Strings.Count v (str "-")).
Proof.
  assert (H : MatchString pseudoVersionRE v = true -> 2 <= Strings.Count v (str "-")).
  { intros Hm%MatchString_pseudoVersionRE%grammar_hyphens.
    by rewrite Count_hyphens. }
  split; [|exact H]. unfold isPseudoVersion.
  destruct (MatchString pseudoVersionRE v); [|apply andb_false_r].
  rewrite andb_true_r. apply Nat.leb_le. by apply H.
Qed.

Lemma alnum_not_hyphen (rev : gostring) : Forall is_alnum rev -> "-"%char ∉ rev.
Proof.
  rewrite Forall_forall. intros H Hin. specialize (H _ Hin).
  unfold is_alnum, is_digit in H. change (code "-") with 45%N in H. lia.
Qed.

Lemma HasSuffix_app (s suffix : gostring) : Strings.HasSuffix (s ++ suffix) suffix = true.
Proof.
  unfold Strings.HasSuffix. rewrite length_app.
  replace (length s + length suffix - length suffix) with (length s) by lia.
  rewrite drop_app_length, bool_decide_eq_true_2 by done.
  rewrite andb_true_r. apply Nat.leb_le. lia.
Qed.

(** X9: for a version whose text [v] without a trailing "+incompatible" is
    a pseudo-version, the commit is, whatever the directory, the revision
    token at the end of [v]: a non-empty string of letters and digits; it is
    followed by "+incompatible" only when [v] itself still ends with that
    marker. *)
Theorem pseudo_version_commit_is_revision (version dir : gostring) :
  let v := Strings.TrimSuffix version (str "+incompatible") in
  isPseudoVersion v = true ->
  exists front revision marker,
    v = front ++ str "-" ++ revision ++ marker
    /\ commitFromVersion version dir = revision ++ marker
    /\ revision <> [] /\ Forall is_alnum revision
    /\ (marker = [] \/ marker = str "+incompatible")
    /\ (Strings.HasSuffix v (str "+incompatible") = false -> marker = []).
Proof.
  intros v Hv.
  destruct (proj1 (isPseudoVersion_spec v) Hv)
    as (_ & major & middle & ts & rev & marker & Hdec & _ & _ & _ & _ & Hne & Hrev & Hmk).
  exists (str "v" ++ major ++ str "." ++ middle ++ ts), rev, marker.
  assert (Hv' : v = (str "v" ++ major ++ str "." ++ middle ++ ts)
                    ++ "-"%char :: rev ++ marker).
  { rewrite Hdec. by rewrite <- !app_assoc. }
  split; [exact Hv'|]. split.
  - unfold commitFromVersion. fold v. rewrite Hv, Hv'.
    apply (slice_after_last "-").
    intros [Hin|Hin]%elem_of_app; [by apply alnum_not_hyphen in Hin|].
    destruct Hmk as [->| ->]; [by apply elem_of_nil in Hin|].
    revert Hin. apply (bool_decide_unpack _). by vm_compute.
  - do 3 (split; [done|]). intros Hs. destruct Hmk as [->| ->]; [done|].
    rewrite Hdec in Hs.
    replace (str "v" ++ major ++ str "." ++ middle ++ ts ++ str "-" ++ rev
             ++ str "+incompatible")
      with ((str "v" ++ major ++ str "." ++ middle ++ ts ++ str "-" ++ rev)
            ++ str "+incompatible") in Hs by (by rewrite <- !app_assoc).
    by rewrite HasSuffix_app in Hs.
Qed.

Lemma pseudo_version_commit_is_revision_witness :
  exists front revision marker,
    str "v1.2.4-0.20191109021931-daa7c04131f5"
    = front ++ str "-" ++ revision ++ marker
    /\ commitFromVersion (str "v1.2.4-0.20191109021931-daa7c04131f5+incompatible")
         (str "sub") = revision ++ marker
    /\ revision <> [] /\ Forall is_alnum revision
    /\ (marker = [] \/ marker = str "+incompatible")
    /\ (Strings.HasSuffix (str "v1.2.4-0.20191109021931-daa7c04131f5")
          (str "+incompatible") = false -> marker = []).
Proof.
  apply (pseudo_version_commit_is_revision
           (str "v1.2.4-0.20191109021931-daa7c04131f5+incompatible") (str "sub")).
  vm_compute. reflexivity.
Defined.

(** X10: a version that does not end with "+incompatible" and the same
    version followed by "+incompatible" have the same commit. *)
Theorem commitFromVersion_incompatible (version dir : gostring) :
  Strings.HasSuffix version (str "+incompatible") = false ->
  commitFromVersion (version ++ str "+incompatible") dir
  = commitFromVersion version dir.
Proof.
  intros Hs.
  assert (Hv : Strings.TrimSuffix version (str "+incompatible") = version).
  { unfold Strings.TrimSuffix. by rewrite Hs. }
  unfold commitFromVersion. by rewrite TrimSuffix_app, Hv.
Qed.

Lemma commitFromVersion_incompatible_witness :
  commitFromVersion (str "v2.0.0" ++ str "+incompatible") (str "sub")
  = commitFromVersion (str "v2.0.0") (str "sub").
Proof.
  apply (commitFromVersion_incompatible (str "v2.0.0") (str "sub")).
  vm_compute. reflexivity.
Defined.

(** ** More on [moduleInfoDynamic], [moduleInfo] and [ModuleInfo] *)

Lemma TrimPrefix_app (p t : gostring) : Strings.TrimPrefix (p ++ t) p = t.
Proof. unfold Strings.TrimPrefix. by rewrite HasPrefix_app, drop_app_length. Qed.

Lemma moduleInfoDynamic_results
  (fetchMeta : gostring -> res sourceMeta) (url_Parse : gostring -> res URL)
  (modulePath version : gostring) :
  (forall e' logged,
     moduleInfoDynamic fetchMeta url_Parse modulePath version = (Err e', logged) ->
     logged = []
     /\ exists e,
          e' = Wrap "source.moduleInfoDynamic" [modulePath; version] e
          /\ (fetchMeta modulePath = Err e
              \/ exists meta, fetchMeta modulePath = Ok meta
                              /\ url_Parse (repoURL meta) = Err e))
  /\ (forall info logged,
        moduleInfoDynamic fetchMeta url_Parse modulePath version = (Ok info, logged) ->
        exists meta rurl,
          fetchMeta modulePath = Ok meta /\ url_Parse (repoURL meta) = Ok rurl).
Proof.
  unfold moduleInfoDynamic. split.
  - intros e' logged.
    destruct (fetchMeta modulePath) as [meta|e] eqn:Ef.
    + destruct (url_Parse (repoURL meta)) as [rurl|e] eqn:Eu; [done|].
      intros [= <- <-]. split; [done|]. exists e. split; [done|]. right.
      by exists meta.
    + intros [= <- <-]. split; [done|]. exists e. split; [done | by left].
  - intros info logged.
    destruct (fetchMeta modulePath) as [meta|e] eqn:Ef; [|done].
    destruct (url_Parse (repoURL meta)) as [rurl|e] eqn:Eu; [|done].
    intros _. by exists meta, rurl.
Qed.

(** X11: [moduleInfoDynamic] fails exactly when the meta tags cannot be
    fetched or the repo URL of the tags does not parse; the error is that
    of the collaborator, annotated with the function and its arguments, and
    nothing is logged. *)
Theorem moduleInfoDynamic_errors
  (fetchMeta : gostring -> res sourceMeta) (url_Parse : gostring -> res URL)
  (modulePath version : gostring) :
  (forall e' logged,
     moduleInfoDynamic fetchMeta url_Parse modulePath version = (Err e', logged) ->
     logged = []
     /\ exists e,
          e' = Wrap "source.moduleInfoDynamic" [modulePath; version] e
          /\ (fetchMeta modulePath = Err e
              \/ exists meta, fetchMeta modulePath = Ok meta
                              /\ url_Parse (repoURL meta) = Err e))
  /\ (forall info logged,
        moduleInfoDynamic fetchMeta url_Parse modulePath version = (Ok info, logged) ->
        exists meta rurl,
          fetchMeta modulePath = Ok meta /\ url_Parse (repoURL meta) = Ok rurl).
Proof. apply moduleInfoDynamic_results. Qed.

(** X12: when the meta tags are fetched and their repo URL parses,
    [moduleInfoDynamic] returns an [Info] whose repo URL is that of the tags
    without one trailing slash (not the repo that a pattern captures), whose
    templates are those of the pattern that matches the host and path of
    the URL, and whose module directory is the module path without the repo
    root prefix and one slash; a message is logged exactly when the
    templates are the zero value. *)
Theorem moduleInfoDynamic_success
  (fetchMeta : gostring -> res sourceMeta) (url_Parse : gostring -> res URL)
  (modulePath version : gostring) (meta : sourceMeta) (rurl : URL) :
  fetchMeta modulePath = Ok meta ->
  url_Parse (repoURL meta) = Ok rurl ->
  exists info logged,
    moduleInfoDynamic fetchMeta url_Parse modulePath version = (Ok info, logged)
    /\ RepoURL info = Strings.TrimSuffix (repoURL meta) (str "/")
    /\ commit info = commitFromVersion version (moduleDir info)
    /\ templates info
       = match matchStatic (Path.Join [Hostname rurl; Path rurl]) with
         | Ok (_, _, t) => t
         | Err _ => noTemplates
         end
    /\ (logged = [] <-> templates info <> noTemplates)
    /\ (forall sub, modulePath = repoRootPrefix meta ++ str "/" ++ sub ->
          moduleDir info = sub)
    /\ (modulePath = repoRootPrefix meta -> moduleDir info = [])
    /\ (Strings.HasPrefix modulePath (repoRootPrefix meta) = false ->
          moduleDir info = Strings.TrimPrefix modulePath (str "/")).
Proof.
  intros Hf Hu. unfold moduleInfoDynamic. rewrite Hf, Hu.
  eexists _, _. split; [reflexivity|]. cbn [RepoURL commit templates moduleDir].
  do 3 (split; [reflexivity|]). split; [|split; [|split]].
  - case_bool_decide as Ht; split; done.
  - intros sub ->. rewrite TrimPrefix_app.
    apply (TrimPrefix_app (str "/") sub).
  - intros Hp. rewrite Hp at 1.
    rewrite <- (app_nil_r (repoRootPrefix meta)) at 1. by rewrite TrimPrefix_app.
  - intros Hp. unfold Strings.TrimPrefix at 2. by rewrite Hp.
Qed.

Lemma moduleInfoDynamic_success_witness :
  let meta := mkMeta (str "example.org/a") (str "https://github.com/a/b/") in
  exists info,
    moduleInfoDynamic (fun _ => Ok meta)
      (fun _ => Ok (mkURL (str "github.com") (str "/a/b/")))
      (str "example.org/a/sub") (str "v1.0.0") = (Ok info, [])
    /\ RepoURL info = str "https://github.com/a/b"
    /\ templates info = githubURLTemplates
    /\ moduleDir info = str "sub"
    /\ FileURL map_to_list info (str "main.go")
       = str "https://github.com/a/b/blob/sub/v1.0.0/sub/main.go".
Proof.
  intros meta.
  destruct (moduleInfoDynamic_success (fun _ => Ok meta)
              (fun _ => Ok (mkURL (str "github.com") (str "/a/b/")))
              (str "example.org/a/sub") (str "v1.0.0") meta
              (mkURL (str "github.com") (str "/a/b/")) eq_refl eq_refl)
    as (info & logged & H & H1 & H2 & H3 & H4 & H5 & _).
  assert (Ht : templates info = githubURLTemplates)
    by (rewrite H3; vm_compute; reflexivity).
  assert (Hl : logged = []).
  { apply H4. rewrite Ht. vm_compute. discriminate. }
  assert (Hd : moduleDir info = str "sub") by (apply H5; reflexivity).
  assert (Hr : RepoURL info = str "https://github.com/a/b")
    by (rewrite H1; vm_compute; reflexivity).
  exists info. rewrite <- Hl. split; [exact H|]. split; [exact Hr|].
  split; [exact Ht|]. split; [exact Hd|].
  rewrite (github_FileURL map_to_list (fun m => reflexivity _) info Ht).
  rewrite Hr, H2, Hd. vm_compute. reflexivity.
Defined.

Section ModuleInfoMore.
Variable range : gmap gostring gostring -> list (gostring * gostring).
Hypothesis range_enumerates : forall m, range m ≡ₚ map_to_list m.
Variable stdlib_ModulePath : gostring.
Variable stdlib_TagForVersion : gostring -> res gostring.
Variable stdlib_Directory : gostring -> gostring.
Variable stdlib_GoSourceRepoURL : gostring.
Variable fetchMeta : gostring -> res sourceMeta.
Variable url_Parse : gostring -> res URL.

(** X13: for a module path "github.com/owner/name" or below it, other than
    the path of the standard library, [ModuleInfo] returns, without a look
    at the meta tags and without a log message, the [Info] of the repo
    "https://github.com/owner/name" with the rest of the path as module
    directory; its file URLs are
    "https://github.com/owner/name/blob/<commit>/<joined path>". *)
Theorem ModuleInfo_github_module (owner nm rest version pathname : gostring) :
  name owner -> name nm -> ends_name rest ->
  (str "github.com/" ++ owner ++ str "/" ++ nm) ++ rest <> stdlib_ModulePath ->
  exists info,
    ModuleInfo stdlib_ModulePath stdlib_TagForVersion stdlib_Directory
      stdlib_GoSourceRepoURL fetchMeta url_Parse
      ((str "github.com/" ++ owner ++ str "/" ++ nm) ++ rest) version
    = (Ok info, [])
    /\ RepoURL info = str "https://github.com/" ++ owner ++ str "/" ++ nm
    /\ moduleDir info = Strings.TrimPrefix rest (str "/")
    /\ commit info = commitFromVersion version (moduleDir info)
    /\ FileURL range info pathname
       = str "https://github.com/" ++ owner ++ str "/" ++ nm ++ str "/blob/"
         ++ commit info ++ str "/" ++ Path.Join [moduleDir info; pathname].
Proof.
  intros Ho Hn Hr Hstd.
  destruct (two_segment_results owner nm rest Ho Hn Hr) as [Hm _].
  set (dir := Strings.TrimPrefix rest (str "/")) in *.
  exists {| RepoURL := str "https://" ++ str "github.com/" ++ owner ++ str "/" ++ nm;
            moduleDir := dir;
            commit := commitFromVersion version dir;
            templates := githubURLTemplates |}.
  split.
  - unfold ModuleInfo, moduleInfo. rewrite bool_decide_eq_false_2 by done.
    by rewrite Hm.
  - cbn [RepoURL moduleDir commit]. do 3 (split; [reflexivity|]).
    rewrite (github_FileURL range range_enumerates) by reflexivity.
    cbn [RepoURL moduleDir commit]. by rewrite <- !app_assoc.
Qed.

(** X14: an error of [ModuleInfo] is never [NotFound] of the static
    matcher and comes without a log message: it is the error of
    [stdlib.TagForVersion] for the path of the standard library, or, for a
    path that no pattern matches, the error of the fetching of the meta tags
    or of the parsing of their repo URL as [moduleInfoDynamic] annotates it;
    in each case it is annotated with "source.ModuleInfo" and the
    arguments. *)
Theorem ModuleInfo_errors (modulePath version : gostring) (e' : error)
  (logged : list log_entry) :
  ModuleInfo stdlib_ModulePath stdlib_TagForVersion stdlib_Directory
    stdlib_GoSourceRepoURL fetchMeta url_Parse modulePath version
  = (Err e', logged) ->
  logged = []
  /\ exists e,
       e' = Wrap "source.ModuleInfo" [modulePath; version] e
       /\ ((modulePath = stdlib_ModulePath /\ stdlib_TagForVersion version = Err e)
           \/ (modulePath <> stdlib_ModulePath
               /\ matchStatic modulePath = Err NotFound
               /\ exists e0,
                    e = Wrap "source.moduleInfoDynamic" [modulePath; version] e0
                    /\ (fetchMeta modulePath = Err e0
                        \/ exists meta, fetchMeta modulePath = Ok meta
                                        /\ url_Parse (repoURL meta) = Err e0))).
Proof.
  unfold ModuleInfo, moduleInfo. case_bool_decide as Hstd.
  - destruct (stdlib_TagForVersion version) as [c|e] eqn:Et; [done|].
    intros [= <- <-]. split; [done|]. exists e. split; [done|]. by left.
  - destruct (matchStatic modulePath) as [[[repo dir] t]|e] eqn:Em; [done|].
    apply (matchStatic_in_Err patterns) in Em as ->.
    destruct (moduleInfoDynamic fetchMeta url_Parse modulePath version)
      as [[info|e] logged'] eqn:Ed; [done|].
    intros [= <- <-].
    apply (proj1 (moduleInfoDynamic_results fetchMeta url_Parse modulePath version))
      in Ed as (-> & e0 & -> & He0).
    split; [done|]. eexists. split; [reflexivity|]. right.
    split; [done|]. split; [done|]. by exists e0.
Qed.

(** X15: for the path of the standard library [ModuleInfo] asks neither the
    table nor the meta tags: with the tag of [stdlib.TagForVersion] as
    commit it returns the [Info] of the Go repo with the github templates,
    whose file URLs are "<repo>/blob/<tag>/<joined path>". *)
Theorem ModuleInfo_stdlib (version tag pathname : gostring) :
  stdlib_TagForVersion version = Ok tag ->
  exists info,
    ModuleInfo stdlib_ModulePath stdlib_TagForVersion stdlib_Directory
      stdlib_GoSourceRepoURL fetchMeta url_Parse stdlib_ModulePath version
    = (Ok info, [])
    /\ FileURL range info pathname
       = stdlib_GoSourceRepoURL ++ str "/blob/" ++ tag ++ str "/"
         ++ Path.Join [stdlib_Directory version; pathname]
    /\ DirectoryURL range info []
       = Strings.TrimSuffix
           (stdlib_GoSourceRepoURL ++ str "/tree/" ++ tag ++ str "/"
            ++ Path.Join [stdlib_Directory version; []]) (str "/").
Proof.
  intros Ht.
  exists {| RepoURL := stdlib_GoSourceRepoURL;
            moduleDir := stdlib_Directory version;
            commit := tag;
            templates := githubURLTemplates |}.
  split.
  - unfold ModuleInfo, moduleInfo. rewrite bool_decide_eq_true_2 by done.
    by rewrite Ht.
  - split.
    + by rewrite (github_FileURL range range_enumerates) by reflexivity.
    + by rewrite (github_DirectoryURL range range_enumerates) by reflexivity.
Qed.
End ModuleInfoMore.

Lemma ModuleInfo_github_module_witness :
  exists info,
    ModuleInfo (str "std") (fun _ => Err NotFound) (fun _ => []) []
      (fun _ => Err NotFound) (fun _ => Err NotFound)
      (str "github.com/golang/go/src/fmt") (str "v1.2.3") = (Ok info, [])
    /\ RepoURL info = str "https://github.com/golang/go"
    /\ moduleDir info = str "src/fmt"
    /\ commit info = str "src/fmt/v1.2.3"
    /\ FileURL map_to_list info (str "print.go")
       = str "https://github.com/golang/go/blob/src/fmt/v1.2.3/src/fmt/print.go".
Proof.
  destruct (ModuleInfo_github_module map_to_list (fun m => reflexivity _)
              (str "std") (fun _ => Err NotFound) (fun _ => []) []
              (fun _ => Err NotFound) (fun _ => Err NotFound)
              (str "golang") (str "go") (str "/src/fmt") (str "v1.2.3")
              (str "print.go"))
    as (info & H & H1 & H2 & H3 & H4).
  - apply name_run. split; [done|]. repeat constructor.
  - apply name_run. split; [done|]. repeat constructor.
  - apply ends_name_head. intros c t [= <- _]. by vm_compute.
  - vm_compute. discriminate.
  - exists info. split; [exact H|]. split; [exact H1|].
    assert (Hd : moduleDir info = str "src/fmt") by (rewrite H2; reflexivity).
    assert (Hc : commit info = str "src/fmt/v1.2.3")
      by (rewrite H3, Hd; vm_compute; reflexivity).
    split; [exact Hd|]. split; [exact Hc|].
    rewrite H4, Hc, Hd. vm_compute. reflexivity.
Defined.

Lemma ModuleInfo_errors_witness :
  ModuleInfo (str "std") (fun _ => Err NotFound) (fun _ => []) []
    (fun _ => Err (External (str "no meta tags"))) (fun _ => Err NotFound)
    (str "example.org/a") (str "v1.0.0")
  = (Err (Wrap "source.ModuleInfo" [str "example.org/a"; str "v1.0.0"]
            (Wrap "source.moduleInfoDynamic" [str "example.org/a"; str "v1.0.0"]
               (External (str "no meta tags")))), [])
  /\ matchStatic (str "example.org/a") = Err NotFound.
Proof.
  assert (H : ModuleInfo (str "std") (fun _ => Err NotFound) (fun _ => []) []
                (fun _ => Err (External (str "no meta tags"))) (fun _ => Err NotFound)
                (str "example.org/a") (str "v1.0.0")
              = (Err (Wrap "source.ModuleInfo" [str "example.org/a"; str "v1.0.0"]
                        (Wrap "source.moduleInfoDynamic"
                           [str "example.org/a"; str "v1.0.0"]
                           (External (str "no meta tags")))), []))
    by (vm_compute; reflexivity).
  split; [exact H|].
  destruct (ModuleInfo_errors _ _ _ _ _ _ _ _ _ _ H) as (_ & e & _ & [[Hs _]|(_ & Hm & _)]).
  - vm_compute in Hs. discriminate.
  - exact Hm.
Defined.

Lemma ModuleInfo_stdlib_witness :
  exists info,
    ModuleInfo (str "std") (fun _ => Ok (str "go1.13")) (fun _ => str "src")
      (str "https://github.com/golang/go")
      (fun _ => Err NotFound) (fun _ => Err NotFound) (str "std") (str "v1.13.0")
    = (Ok info, [])
    /\ FileURL map_to_list info (str "fmt/print.go")
       = str "https://github.com/golang/go/blob/go1.13/src/fmt/print.go".
Proof.
  destruct (ModuleInfo_stdlib map_to_list (fun m => reflexivity _) (str "std")
              (fun _ => Ok (str "go1.13")) (fun _ => str "src")
              (str "https://github.com/golang/go")
              (fun _ => Err NotFound) (fun _ => Err NotFound)
              (str "v1.13.0") (str "go1.13") (str "fmt/print.go") eq_refl)
    as (info & H & H1 & _).
  exists info. split; [exact H|]. rewrite H1. vm_compute. reflexivity.
Defined.

(** ** More on [init] *)

(** X16: [init] panics at the first pattern of the table that has no group
    named "repo", whatever follows it, and the message of the panic names
    the source text of that pattern. *)
Theorem init_first_offender (pre post : list pattern) (p : pattern) :
  Forall (fun q => "repo"%string ∈ SubexpNames (re q)) pre ->
  "repo"%string ∉ SubexpNames (re p) ->
  init_on (pre ++ p :: post)
  = Panic ("pattern " +:+ source (re p) +:+ " missing <repo> group").
Proof.
  intros Hpre Hp. induction Hpre as [|q pre Hq _ IH]; cbn [app init_on].
  - destruct (has_repo_group (SubexpNames (re p))) eqn:E; [|done].
    by apply has_repo_group_spec in E.
  - by rewrite (proj2 (has_repo_group_spec _) Hq).
Qed.

Lemma init_first_offender_witness :
  init_on (take 2 patterns ++ mkPattern pseudoVersionRE noTemplates :: drop 2 patterns)
  = Panic ("pattern " +:+ source pseudoVersionRE +:+ " missing <repo> group").
Proof.
  apply (init_first_offender (take 2 patterns) (drop 2 patterns)
           (mkPattern pseudoVersionRE noTemplates)).
  - decide_closed.
  - decide_closed.
Defined.

(** ** What the match that the search returns has matched *)

Section Sound.
Import Lang.

Lemma loop_sound greedy body (L : gostring -> gostring -> Prop) fuel :
  (forall s caps k res, body s caps k = Some res ->
     exists s' caps', L s s' /\ k s' caps' = Some res) ->
  forall s caps k res, loop greedy body fuel s caps k = Some res ->
    exists s' caps', star L s s' /\ k s' caps' = Some res.
Proof.
  intros Hb. induction fuel as [|fuel IH]; intros s caps k res; simpl.
  - intros H. exists s, caps. split; [apply star_refl | done].
  - set (K := fun (s' : gostring) (caps' : captures) =>
                if length s' <? length s then loop greedy body fuel s' caps' k
                else None).
    assert (HK : body s caps K = Some res ->
                 exists s' caps', star L s s' /\ k s' caps' = Some res).
    { intros (s1 & c1 & HL & H1)%Hb. unfold K in H1.
      destruct (length s1 <? length s) eqn:E; [|done]. apply Nat.ltb_lt in E.
      apply IH in H1 as (s2 & c2 & Hst & H2).
      exists s2, c2. split; [by eapply star_step | done]. }
    destruct greedy.
    + destruct (body s caps K) as [x|] eqn:E.
      * intros [= ->]. by apply HK.
      * intros H. exists s, caps. split; [apply star_refl | done].
    + destruct (k s caps) as [x|] eqn:E.
      * intros [= ->]. exists s, caps. split; [apply star_refl | done].
      * apply HK.
Qed.

Lemma times_sound count body (L : gostring -> gostring -> Prop) :
  (forall s caps k res, body s caps k = Some res ->
     exists s' caps', L s s' /\ k s' caps' = Some res) ->
  forall s caps k res, times count body s caps k = Some res ->
    exists s' caps', iter count L s s' /\ k s' caps' = Some res.
Proof.
  intros Hb. induction count as [|count IH]; intros s caps k res; simpl.
  - intros H. by exists s, caps.
  - intros (s1 & c1 & HL & (s2 & c2 & Hit & H2)%IH)%Hb.
    exists s2, c2. split; [by exists s1 | done].
Qed.

Lemma m_sound n r s caps k res :
  m n r s caps k = Some res ->
  exists s' caps', lang n r s s' /\ k s' caps' = Some res.
Proof.
  revert s caps k res.
  induction r as [|l|cs|cs| | | |r1 IH1 r2 IH2|r1 IH1 r2 IH2
                  |r IH|r IH|r IH|r IH|count r IH|i name r IH];
    intros s caps k res; cbn [m lang].
  - intros H. by exists s, caps.
  - destruct (Strings.HasPrefix s l) eqn:E; [|done]. intros H.
    apply HasPrefix_spec in E as [t ->]. rewrite drop_app_length in H.
    by exists t, caps.
  - destruct s as [|c s]; [done|].
    destruct ((code c <? 128)%N && in_class cs c) eqn:E; [|done]. intros H.
    exists s, caps. split; [by exists c | done].
  - destruct s as [|c s]; [done|].
    destruct ((code c <? 128)%N && in_class cs c) eqn:E; [done|]. intros H.
    eexists _, caps. split; [|exact H]. by exists c, s.
  - destruct s as [|c s]; [done|].
    destruct (Ascii.eqb c "010") eqn:E; [done|]. intros H.
    eexists _, caps. split; [|exact H]. by exists c, s.
  - destruct (length s =? n) eqn:E; [|done]. apply Nat.eqb_eq in E. intros H.
    by exists s, caps.
  - destruct s; [|done]. intros H. by exists [], caps.
  - intros (s1 & c1 & H1 & (s2 & c2 & H2 & Hk)%IH2)%IH1.
    exists s2, c2. split; [by exists s1 | done].
  - unfold or_else. destruct (m n r1 s caps k) as [x|] eqn:E.
    + intros [= <-]. apply IH1 in E as (s1 & c1 & H1 & Hk).
      exists s1, c1. split; [by left | done].
    + intros (s1 & c1 & H1 & Hk)%IH2. exists s1, c1. split; [by right | done].
  - by apply loop_sound.
  - intros (s1 & c1 & H1 & H)%IH.
    apply (loop_sound true (m n r) (lang n r)) in H as (s2 & c2 & H2 & Hk); [|done].
    exists s2, c2. split; [by exists s1 | done].
  - intros (s1 & c1 & H1 & H)%IH.
    apply (loop_sound false (m n r) (lang n r)) in H as (s2 & c2 & H2 & Hk); [|done].
    exists s2, c2. split; [by exists s1 | done].
  - unfold or_else. destruct (m n r s caps k) as [x|] eqn:E.
    + intros [= <-]. apply IH in E as (s1 & c1 & H1 & Hk).
      exists s1, c1. split; [by left | done].
    + intros H. exists s, caps. split; [by right | done].
  - by apply times_sound.
  - intros (s1 & c1 & H1 & Hk)%IH. by eexists s1, _.
Qed.

End Sound.

Section Matched.
Import Lang.

Lemma star_suffix (L : gostring -> gostring -> Prop) s s' :
  (forall a b, L a b -> b `suffix_of` a) -> star L s s' -> s' `suffix_of` s.
Proof. intros HL. induction 1 as [|s t u Hst _ _ IH]; [done|]. etrans; eauto. Qed.

Lemma lang_suffix n r (s s' : gostring) : lang n r s s' -> s' `suffix_of` s.
Proof.
  revert s s'.
  induction r as [|l|cs|cs| | | |r1 IH1 r2 IH2|r1 IH1 r2 IH2
                  |r IH|r IH|r IH|r IH|count r IH|i name r IH];
    intros s s'; cbn [lang].
  - by intros ->.
  - intros ->. by apply suffix_app_r.
  - intros (c & -> & _). by apply suffix_cons_r.
  - intros (c & t & _ & _ & ->). apply suffix_drop.
  - intros (c & t & _ & _ & ->). apply suffix_drop.
  - by intros [-> _].
  - by intros [-> _].
  - intros (t & H1%IH1 & H2%IH2). by etrans.
  - intros [H|H]; eauto.
  - by apply star_suffix.
  - intros (t & H1%IH & H2). etrans; [|exact H1]. by apply (star_suffix (lang n r)).
  - intros (t & H1%IH & H2). etrans; [|exact H1]. by apply (star_suffix (lang n r)).
  - intros [H| ->]; eauto.
  - revert s. induction count as [|count IHc]; intros s; simpl; [by intros ->|].
    intros (t & H1%IH & H2%IHc). by etrans.
  - apply IH.
Qed.

(** The match that the search returns: where it starts, where it ends and
    that the expression matches in between. *)
Lemma search_match n re skip (s s' : gostring) caps :
  search n re skip s = Some (s', caps) ->
  exists t, t `suffix_of` s /\ lang n (prog re) t s'
            /\ head caps = Some (Some (n - length t, n - length s')).
Proof.
  revert skip. induction s as [|c s IH]; intros skip.
  - destruct skip as [|skip]; [|done]. cbn [search].
    destruct (m n _ [] _ _) as [x|] eqn:E; [|done]. intros [= ->].
    cbn [m] in E. pose proof E as E'.
    apply m_sound in E as (s1 & c1 & H1 & [= <- _]).
    apply m_threads in E' as (s2 & c2 & [= Hs <-] & Hl & _). subst s2.
    rewrite length_replicate in Hl. exists []. split; [done|]. split; [done|].
    destruct c2; [done | reflexivity].
  - assert (Hrec : forall skip', search n re skip' s = Some (s', caps) ->
              exists t, t `suffix_of` c :: s /\ lang n (prog re) t s'
                        /\ head caps = Some (Some (n - length t, n - length s'))).
    { intros skip' (t & Ht & HL)%IH. exists t. split; [by apply suffix_cons_r | done]. }
    destruct skip as [|skip]; cbn [search]; [|apply Hrec].
    destruct (m n _ (c :: s) _ _) as [x|] eqn:E; [|apply Hrec].
    intros [= ->]. cbn [m] in E. pose proof E as E'.
    apply m_sound in E as (s1 & c1 & H1 & [= <- _]).
    apply m_threads in E' as (s2 & c2 & [= Hs <-] & Hl & _). subst s2.
    rewrite length_replicate in Hl. exists (c :: s). split; [done|]. split; [done|].
    destruct c2; [done | reflexivity].
Qed.

(** The text of the whole match, as [FindStringSubmatch] returns it. *)
Lemma FindStringSubmatch_match re (id : gostring) matches :
  FindStringSubmatch re id = Some matches ->
  exists before whole after,
    id = before ++ whole ++ after
    /\ matches !! 0 = Some whole
    /\ lang (length id) (prog re) (whole ++ after) after.
Proof.
  unfold FindStringSubmatch.
  destruct (search (length id) re 0 id) as [[s' caps]|] eqn:E; [|done].
  intros [= <-].
  apply search_match in E as (t & [before Hid] & HL & Hh).
  destruct (lang_suffix _ _ _ _ HL) as [whole Ht]. subst t.
  exists before, whole, s'. split; [done|]. split; [|done].
  destruct caps as [|c0 caps]; [done|]. simpl in Hh. injection Hh as ->.
  simpl. f_equal.
  replace (length id - length (whole ++ s')) with (length before)
    by (rewrite Hid, !length_app; lia).
  replace (length id - length s' - length before) with (length whole)
    by (rewrite Hid, !length_app; lia).
  rewrite Hid, drop_app_length. apply take_app_length.
Qed.
End Matched.

(** ** What the patterns of the table need *)

Section Needs.
Import Lang.

Lemma dot_in_suffix (t u : gostring) :
  ("."%char :: u) `suffix_of` t -> "."%char ∈ t.
Proof. intros [x ->]. apply elem_of_app. right. left. Qed.

Lemma pattern_needs_dot (p : pattern) n (t s' : gostring) :
  p ∈ patterns -> lang n (prog (re p)) t s' -> "."%char ∈ t.
Proof.
  unfold patterns.
  intros [->|[->|[->|[->|[]%elem_of_nil]%elem_of_cons]%elem_of_cons]%elem_of_cons]%elem_of_cons;
    cbn [re prog github_re bitbucket_re googlesource_re general_re].
  - intros (t0 & [-> _] & t1 & -> & _). apply elem_of_app. left. decide_closed.
  - intros (t0 & [-> _] & t1 & -> & _). apply elem_of_app. left. decide_closed.
  - intros (t0 & [-> _] & t1 & (u1 & Hplus & u2 & -> & _) & _).
    apply (lang_suffix n (Plus (NotClass dot))) in Hplus.
    by apply dot_in_suffix in Hplus.
  - intros (t1 & HG & t2 & -> & _).
    apply (lang_suffix n (Group 1 "repo" _)) in HG.
    by apply dot_in_suffix in HG.
Qed.

(** X17: every pattern of the table needs a dot: for an identifier without
    a dot [matchStatic] returns [NotFound]. *)
Theorem matchStatic_needs_dot (id : gostring) :
  "."%char ∉ id -> matchStatic id = Err NotFound.
Proof.
  intros Hdot. apply matchStatic_in_NotFound. apply Forall_forall. intros p Hp.
  destruct (FindStringSubmatch (re p) id) as [matches|] eqn:E; [|done].
  apply FindStringSubmatch_match in E as (before & whole & after & Hid & _ & HL).
  apply (pattern_needs_dot p) in HL; [|done]. destruct Hdot.
  rewrite Hid. apply elem_of_app. by right.
Qed.

Lemma matchStatic_needs_dot_witness :
  matchStatic (str "localhost/a/b-git") = Err NotFound.
Proof. apply matchStatic_needs_dot. decide_closed. Defined.

(** X18: the third pattern of the table finds a directory only behind
    ".git": when it matches, the matched text is a prefix of the identifier,
    and either nothing follows it, and the directory is empty, or the
    matched text ends with ".git". *)
Theorem googlesource_directory (id : gostring) (matches : list gostring) :
  FindStringSubmatch googlesource_re id = Some matches ->
  exists whole rest,
    id = whole ++ rest
    /\ matches !! 0 = Some whole
    /\ (match_result
          (mkPattern googlesource_re {|
             directory := str "{repo}/+/{commit}/{dir}";
             file := str "{repo}/+/{commit}/{file}";
             line := str "{repo}/+/{commit}/{file}#{line}" |}) id matches).1.2
       = Strings.TrimPrefix rest (str "/")
    /\ (rest = [] \/ str ".git" `suffix_of` whole).
Proof.
  intros Hm.
  edestruct (match_result_anchored)
    with (p := mkPattern googlesource_re {|
                 directory := str "{repo}/+/{commit}/{dir}";
                 file := str "{repo}/+/{commit}/{file}";
                 line := str "{repo}/+/{commit}/{file}#{line}" |})
    as (whole & rest & Hid & H0 & Hres); [reflexivity | exact Hm |].
  exists whole, rest. split; [done|]. split; [done|]. split; [by rewrite Hres|].
  apply FindStringSubmatch_match in Hm as (before & whole' & after & Hid' & H0' & HL).
  rewrite H0 in H0'. injection H0' as <-.
  cbn [prog googlesource_re lang] in HL.
  destruct HL as (t0 & [-> Hlen] & t1 & HG & Halt).
  assert (before = []) as ->.
  { apply (f_equal length) in Hid'. rewrite length_app in Hid'.
    apply nil_length_inv. lia. }
  simpl in Hid'. rewrite Hid in Hid'. apply app_inv_head in Hid' as ->.
  destruct Halt as [->|[-> ->]]; [|by left]. right.
  assert (Hs : (str ".git" ++ after) `suffix_of` (whole ++ after)).
  { apply (lang_suffix (length id)
             (Plus (NotClass dot) :>: Lit (str ".") :>: Lit (str "googlesource") :>:
              AnyNotNL :>: Lit (str "com/") :>: Plus (NotClass dot))). exact HG. }
  destruct Hs as [x Hx]. exists x.
  rewrite (app_assoc x) in Hx. by apply app_inv_tail in Hx.
Qed.

Lemma googlesource_directory_witness :
  let id := str "go.googlesource.com/tools/cmd" in
  exists whole rest,
    id = whole ++ rest
    /\ [id; id; []] !! 0 = Some whole
    /\ (match_result
          (mkPattern googlesource_re {|
             directory := str "{repo}/+/{commit}/{dir}";
             file := str "{repo}/+/{commit}/{file}";
             line := str "{repo}/+/{commit}/{file}#{line}" |}) id [id; id; []]).1.2
       = Strings.TrimPrefix rest (str "/")
    /\ (rest = [] \/ str ".git" `suffix_of` whole).
Proof.
  intros id. apply (googlesource_directory id [id; id; []]).
  vm_compute. reflexivity.
Defined.

(** X19: the last pattern of the table matches only a text that ends with
    a dot and the name of one of the five version control systems. *)
Theorem general_pattern_suffix (id : gostring) (matches : list gostring) :
  FindStringSubmatch general_re id = Some matches ->
  exists before whole after vcs,
    id = before ++ whole ++ after
    /\ matches !! 0 = Some whole
    /\ vcs ∈ [str "bzr"; str "fossil"; str "git"; str "hg"; str "svn"]
    /\ (str "." ++ vcs) `suffix_of` whole.
Proof.
  intros (before & whole & after & Hid & H0 & HL)%FindStringSubmatch_match.
  cbn [prog general_re] in HL.
  destruct HL as (t1 & HG & t2 & -> & Hvcs).
  apply (lang_suffix _ (Group 1 "repo" _)) in HG as [x Hx].
  assert (H : forall vcs, t2 = vcs ++ after -> (str "." ++ vcs) `suffix_of` whole).
  { intros vcs ->. exists x.
    replace (x ++ str "." ++ vcs ++ after) with ((x ++ str "." ++ vcs) ++ after)
      in Hx by (by rewrite <- !app_assoc).
    by apply app_inv_tail in Hx. }
  cbn [lang] in Hvcs.
  destruct Hvcs as [Hv|[Hv|[Hv|[Hv|Hv]]]];
    eexists before, whole, after, _; (split; [done|]); (split; [done|]);
    (split; [|by apply H]).
  - by left.
  - right. by left.
  - do 2 right. by left.
  - do 3 right. by left.
  - do 4 right. by left.
Qed.

Lemma general_pattern_suffix_witness :
  exists before whole after vcs,
    str "example.com/a~b/c.d/e.git" = before ++ whole ++ after
    /\ [str "c.d/e.git"; str "c.d/e"; str "c."; []; str "/e"; str "git"] !! 0
       = Some whole
    /\ vcs ∈ [str "bzr"; str "fossil"; str "git"; str "hg"; str "svn"]
    /\ (str "." ++ vcs) `suffix_of` whole.
Proof.
  apply (general_pattern_suffix (str "example.com/a~b/c.d/e.git")).
  vm_compute. reflexivity.
Defined.
End Needs.
